(** * Residual statistics of a fitted linear model (scran, compute_residual_stats.cpp)

    A shallow embedding of [src/compute_residual_stats.cpp]: the two value
    transforms ([none], [lognorm]), the templated driver
    [compute_residual_stats] and the two exported entry points.

    Doubles are the kernel's binary64 floats, so the arithmetic of the source
    ([+], [*], [/] and the conversion of a [size_t]) is the IEEE arithmetic
    and every definition runs.  The collaborators that live outside the file
    (the C library's [std::log], beachmat's matrices, scuttle's
    [linear_model_fit]) are interfaces: a variable or a class with the laws
    the driver relies on. *)

From Stdlib Require Import ZArith Floats String.
From stdpp Require Import base list.

(** ** Outcomes of a call *)

(** What running a piece of the C++ yields: a value, an exception that
    reaches R as an error, or an access outside an allocation (undefined
    behaviour, nothing is promised afterwards). *)
Inductive outcome (A : Type) : Type :=
| Ok (a : A)
| Fatal (what : string)
| Undefined.
Arguments Ok {A} a.
Arguments Fatal {A} what.
Arguments Undefined {A}.

#[global] Instance outcome_ret : MRet outcome := @Ok.
#[global] Instance outcome_bind : MBind outcome := λ A B k m,
  match m with
  | Ok a => k a
  | Fatal what => Fatal what
  | Undefined => Undefined
  end.

Definition is_ok {A} (m : outcome A) : bool :=
  match m with Ok _ => true | _ => false end.

Definition is_fatal {A} (m : outcome A) : bool :=
  match m with Fatal _ => true | _ => false end.

(** ** Doubles and sizes *)

Abbreviation double := float (only parsing).
Abbreviation NumericVector := (list float) (only parsing).

(** [M_LN2] of <math.h>, the double nearest to ln 2. *)
Definition M_LN2 : double := 0x1.62e42fefa39efp-1%float.

(** The conversion to [double] of an integer: round to nearest, ties to
    even (exact below 2^53). *)
Definition Z_to_double (z : Z) : double :=
  SF2Prim (binary_normalize prec emax z 0 false).

(** [size_t] is 64 bits wide; subtraction wraps around. *)
Definition size_sub (a b : nat) : Z := ((Z.of_nat a - Z.of_nat b) mod 2 ^ 64)%Z.

Definition size_to_double (n : nat) : double := Z_to_double (Z.of_nat n).

(** ** Vectors behind iterators *)

(** [*it] for an iterator [i] places past [begin()]: defined inside the
    allocation only. *)
Definition deref (v : NumericVector) (i : nat) : outcome double :=
  match v !! i with
  | Some x => Ok x
  | None => Undefined
  end.

(** [*it = x]. *)
Definition assign (v : NumericVector) (i : nat) (x : double) : outcome NumericVector :=
  if decide (i < length v) then Ok (<[i:=x]> v) else Undefined.

(** Values written one after the other through an iterator at [begin()]:
    they take the place of as many values of the vector. *)
Definition write_from_begin (v row : NumericVector) : outcome NumericVector :=
  if decide (length row ≤ length v) then Ok (row ++ drop (length row) v)
  else Undefined.

(** [std::accumulate(first, last, 0.0)] over a whole vector. *)
Definition accumulate (v : NumericVector) (init : double) : double :=
  fold_left PrimFloat.add v init.

(** ** The value transforms *)

(** A [TRANSFORMER] is a function object called on an iterator range
    [(start, end)]: the call may change the object and the values in the
    range; the range itself, two iterators passed by value, stays as long as
    it was. *)
Class Transformer (T : Type) : Type := {
  transform : T → NumericVector → outcome (T * NumericVector);
  transform_length t buf t' buf' :
    transform t buf = Ok (t', buf') → length buf' = length buf
}.

(** [struct none]: no fields, an empty call operator. *)
Inductive none : Type := none_ctor.

Definition none_op (N : none) (buf : NumericVector) : outcome (none * NumericVector) :=
  Ok (N, buf).

#[global, refine] Instance none_transformer : Transformer none :=
  {| transform := none_op |}.
Proof. by intros t buf t' buf' [= _ ->]. Defined.

(** [struct lognorm]. *)
Record lognorm : Type := lognorm_ctor { sf : NumericVector; ps : double }.

Section Lognorm.
(** [std::log] of the platform's C library. *)
Variable log : double → double.

(** The cell update [std::log(x / s + ps) / M_LN2]. *)
Definition lognorm_cell (pseudo x s : double) : double :=
  (log (x / s + pseudo) / M_LN2)%float.

(** [while (start != end)] with [n] the distance from [start] to [end];
    [start] and [sfIt] are offsets from the two [begin()]s. *)
Fixpoint lognorm_loop (LN : lognorm) (n start sfIt : nat) (buf : NumericVector)
  : outcome NumericVector :=
  match n with
  | 0 => Ok buf
  | S n' =>
      x ← deref buf start;
      s ← deref (sf LN) sfIt;
      buf' ← assign buf start (lognorm_cell (ps LN) x s);
      lognorm_loop LN n' (S start) (S sfIt) buf'
  end.

Definition lognorm_op (LN : lognorm) (buf : NumericVector)
  : outcome (lognorm * NumericVector) :=
  buf' ← lognorm_loop LN (length buf) 0 0 buf;
  Ok (LN, buf').

#[global, refine] Instance lognorm_transformer : Transformer lognorm :=
  {| transform := lognorm_op |}.
Proof.
  intros t buf t' buf'. unfold lognorm_op.
  assert (∀ n start sfIt b b',
            lognorm_loop t n start sfIt b = Ok b' → length b' = length b) as Hlen.
  { induction n as [|n IH]; intros start sfIt b b' H; simpl in H.
    - by injection H as <-.
    - destruct (deref b start) as [x| |]; simpl in H; [|done..].
      destruct (deref (sf t) sfIt) as [s| |]; simpl in H; [|done..].
      unfold assign in H. case_decide; simpl in H; [|done].
      apply IH in H. by rewrite length_insert in H. }
  intros H.
  destruct (lognorm_loop t (length buf) 0 0 buf) as [b| |] eqn:E; simpl in H; [|done..].
  injection H as _ <-. by eapply Hlen.
Defined.
End Lognorm.

(** The base-2 logarithm where it is a double itself: of a power of two,
    the exponent. *)
Definition exact_log2 (y : double) : option double :=
  let '(m, e) := Z.frexp y in
  if (m =? 0.5)%float then Some (Z_to_double (e - 1)) else None.

(** The double nearest to [ln (2^29) = 20.10126823623841397...]. *)
Definition ln_2_pow_29 : double := 0x1.419ecb712c481p+4%float.

(** ** R matrices *)

(** [Rcpp::NumericMatrix]: the dimensions and the values, column after
    column. *)
Record NumericMatrix : Type := {
  nrow : nat;
  ncol : nat;
  elems : NumericVector
}.

(** [Rcpp::NumericMatrix m(nr, nc)]: filled with zeros. *)
Definition NumericMatrix_new (nr nc : nat) : NumericMatrix :=
  {| nrow := nr; ncol := nc; elems := replicate (nr * nc) 0%float |}.

(** [m.column(j).begin()], as an offset into the values. *)
Definition column_begin (m : NumericMatrix) (j : nat) : nat := j * nrow m.

Definition with_elems (m : NumericMatrix) (v : NumericVector) : NumericMatrix :=
  {| nrow := nrow m; ncol := ncol m; elems := v |}.

(** ** The row source *)

(** Values of a matrix by row, in the storage type [A] of the R object. *)
Record dense (A : Type) : Type := {
  d_nrow : nat;
  d_ncol : nat;
  d_rows : list (list A)
}.
Arguments d_nrow {A} _.
Arguments d_ncol {A} _.
Arguments d_rows {A} _.

(** The matrix argument [inmat]: integer or double storage. *)
Inductive RObject : Type :=
| IntegerMatrix (m : dense Z)
| RealMatrix (m : dense double).

Inductive SEXPTYPE : Type := INTSXP | REALSXP.

#[global] Instance SEXPTYPE_eq_dec : EqDecision SEXPTYPE.
Proof. solve_decision. Defined.

Definition find_sexp_type (inmat : RObject) : SEXPTYPE :=
  match inmat with
  | IntegerMatrix _ => INTSXP
  | RealMatrix _ => REALSXP
  end.

(** What the driver asks of the template parameter [M]: creation from the
    R object, the two dimensions, and [get_row(r, out)], which writes one
    value per column through [out]. *)
Class Matrix (M : Type) : Type := {
  create_matrix : RObject → outcome M;
  get_nrow : M → nat;
  get_ncol : M → nat;
  get_row : M → nat → outcome NumericVector;
  get_row_length m r row : get_row m r = Ok row → length row = get_ncol m
}.

(** Modelled from the spec: the Row Source of section 4.1 (beachmat's
    matrix classes are not part of the source file).  Row [r] is copied
    out, each stored value converted by [up]; a row index out of range and
    storage that does not hold [d_ncol] values for the row are fatal. *)
Definition dense_get_row {A} (up : A → double) (m : dense A) (r : nat)
  : outcome NumericVector :=
  if decide (r < d_nrow m) then
    match d_rows m !! r with
    | Some row =>
        if decide (length row = d_ncol m) then Ok (up <$> row)
        else Fatal "corrupt storage"
    | None => Fatal "truncated storage"
    end
  else Fatal "row index out of range".

Definition integer_matrix : Type := dense Z.
Definition numeric_matrix : Type := dense double.

(** Modelled from the spec: [beachmat::integer_matrix], stored integers
    upcast to double. *)
#[global, refine] Instance integer_matrix_Matrix : Matrix integer_matrix := {|
  create_matrix inmat :=
    match inmat with
    | IntegerMatrix m => Ok m
    | RealMatrix _ => Fatal "matrix should be integer"
    end;
  get_nrow := d_nrow;
  get_ncol := d_ncol;
  get_row := dense_get_row Z_to_double
|}.
Proof.
  intros m r row. simpl. unfold dense_get_row. intros H.
  repeat case_match; try discriminate.
  injection H as <-. by rewrite length_fmap.
Defined.

(** Modelled from the spec: [beachmat::numeric_matrix], stored doubles
    copied as they are. *)
#[global, refine] Instance numeric_matrix_Matrix : Matrix numeric_matrix := {|
  create_matrix inmat :=
    match inmat with
    | RealMatrix m => Ok m
    | IntegerMatrix _ => Fatal "matrix should be double"
    end;
  get_nrow := d_nrow;
  get_ncol := d_ncol;
  get_row := dense_get_row id
|}.
Proof.
  intros m r row. simpl. unfold dense_get_row. intros H.
  repeat case_match; try discriminate.
  injection H as <-. by rewrite length_fmap.
Defined.

(** ** The linear-model projector *)

(** What the driver asks of [scuttle::linear_model_fit]: construction from
    [(qr, qraux)], the number of coefficients, and [multiply(rhs)], which
    works in place on the values behind the pointer it is given. *)
Class LinearModelFit (F : Type) : Type := {
  linear_model_fit : NumericMatrix → NumericVector → outcome F;
  get_ncoefs : F → nat;
  multiply : F → NumericVector → outcome NumericVector;
  multiply_length f rhs rhs' : multiply f rhs = Ok rhs' → length rhs' = length rhs
}.

(** ** The driver, [compute_residual_stats<M, TRANSFORMER>] *)

(** What the function returns: [Rcpp::List::create(outmean, outvar)]. *)
Definition Rcpp_List : Type := (NumericMatrix * NumericMatrix)%type.

(** The objects that live across the iterations of the row loop. *)
Record sweep_state (T : Type) : Type := {
  trans : T;
  outvar : NumericMatrix;
  outmean : NumericMatrix;
  incoming : NumericVector
}.
Arguments trans {T} _.
Arguments outvar {T} _.
Arguments outmean {T} _.
Arguments incoming {T} _.

(** The loop of lines 35 to 38, which adds the square of the value behind
    [iIt] to [v] and steps [iIt] until it meets [iEnd]; [n] is the distance
    from [iIt] to [iEnd]. *)
Fixpoint residual_loop (n iIt : nat) (buf : NumericVector) (v : double)
  : outcome double :=
  match n with
  | 0 => Ok v
  | S n' =>
      x ← deref buf iIt;
      residual_loop n' (S iIt) buf (v + x * x)%float
  end.

(** [iIt += ncoefs] and the loop after it.  Past [iEnd] the iterator never
    meets it again: the loop walks out of the buffer. *)
Definition residual_sum (ncoefs : nat) (buf : NumericVector) (v : double)
  : outcome double :=
  if decide (ncoefs ≤ length buf)
  then residual_loop (length buf - ncoefs) ncoefs buf v
  else Undefined.

(** Lines 33 to 39 store by store: [v] is a reference to the entry of
    [outvar], so each [v += ...] and the final [v /= ...] leaves a value in
    the entry.  [accumulation_stores] lists the values left by the loop,
    [variance_stores] those and the quotient after them. *)
Fixpoint accumulation_stores (n iIt : nat) (buf : NumericVector) (v : double)
  : outcome (list double) :=
  match n with
  | 0 => Ok []
  | S n' =>
      x ← deref buf iIt;
      rest ← accumulation_stores n' (S iIt) buf (v + x * x)%float;
      Ok ((v + x * x)%float :: rest)
  end.

Definition variance_stores (ncells ncoefs : nat) (buf : NumericVector) (v : double)
  : outcome (list double) :=
  if decide (ncoefs ≤ length buf) then
    acc ← accumulation_stores (length buf - ncoefs) ncoefs buf v;
    Ok (acc ++ [(default v (last acc) / Z_to_double (size_sub ncells ncoefs))%float])
  else Undefined.

Section Driver.
Context {M : Type} {HM : Matrix M}.
Context {F : Type} {HF : LinearModelFit F}.
Context {T : Type} {HT : Transformer T}.

(** The body of the [for] loop, lines 21 to 39: [get_row] writes the row
    into the buffer [incoming], the transform and the projector work on the
    buffer in place, and the two statistics go to column [counter] of the
    outputs. *)
Definition row_step (emat : M) (fitter : F) (ncells ncoefs counter : nat)
    (st : sweep_state T) : outcome (sweep_state T) :=
  row ← get_row emat counter;
  buf ← write_from_begin (incoming st) row;
  '(tr, buf) ← transform (trans st) buf;
  let curvar := column_begin (outvar st) counter in
  let curmean := column_begin (outmean st) counter in
  om ← assign (elems (outmean st)) curmean
         (accumulate buf 0 / size_to_double ncells)%float;
  buf ← multiply fitter buf;
  v ← deref (elems (outvar st)) curvar;
  v ← residual_sum ncoefs buf v;
  ov ← assign (elems (outvar st)) curvar (v / Z_to_double (size_sub ncells ncoefs))%float;
  Ok {| trans := tr;
        outvar := with_elems (outvar st) ov;
        outmean := with_elems (outmean st) om;
        incoming := buf |}.

(** [for (counter = c; counter < ngenes; ++counter)] with [n] iterations
    left. *)
Fixpoint sweep (emat : M) (fitter : F) (ncells ncoefs n counter : nat)
    (st : sweep_state T) : outcome (sweep_state T) :=
  match n with
  | 0 => Ok st
  | S n' =>
      st' ← row_step emat fitter ncells ncoefs counter st;
      sweep emat fitter ncells ncoefs n' (S counter) st'
  end.

(** The state the loop starts from: lines 16 to 18. *)
Definition sweep_init (tr : T) (ngenes ncells : nat) : sweep_state T :=
  {| trans := tr;
     outvar := NumericMatrix_new 1 ngenes;
     outmean := NumericMatrix_new 1 ngenes;
     incoming := replicate ncells 0%float |}.

(** The whole call up to the end of the loop. *)
Definition run_sweep (qr : NumericMatrix) (qraux : NumericVector)
    (inmat : RObject) (tr : T) : outcome (sweep_state T) :=
  emat ← create_matrix (M:=M) inmat;
  let ncells := get_ncol emat in
  let ngenes := get_nrow emat in
  fitter ← linear_model_fit (F:=F) qr qraux;
  let ncoefs := get_ncoefs fitter in
  sweep emat fitter ncells ncoefs ngenes 0 (sweep_init tr ngenes ncells).

Definition compute_residual_stats (qr : NumericMatrix) (qraux : NumericVector)
    (inmat : RObject) (tr : T) : outcome Rcpp_List :=
  st ← run_sweep qr qraux inmat tr;
  Ok (outmean st, outvar st).
End Driver.

(** ** The exported entry points *)

Section EntryPoints.
Variable log : double → double.
Context {F : Type} {HF : LinearModelFit F}.

Definition compute_residual_stats_lognorm (qr : NumericMatrix)
    (qraux : NumericVector) (inmat : RObject) (sf : NumericVector)
    (pseudo : double) : outcome Rcpp_List :=
  let rtype := find_sexp_type inmat in
  let LN := lognorm_ctor sf pseudo in
  if decide (rtype = INTSXP)
  then compute_residual_stats (M:=integer_matrix) (F:=F)
         (HT:=lognorm_transformer log) qr qraux inmat LN
  else compute_residual_stats (M:=numeric_matrix) (F:=F)
         (HT:=lognorm_transformer log) qr qraux inmat LN.

Definition compute_residual_stats_none (qr : NumericMatrix)
    (qraux : NumericVector) (inmat : RObject) : outcome Rcpp_List :=
  let rtype := find_sexp_type inmat in
  let N := none_ctor in
  if decide (rtype = INTSXP)
  then compute_residual_stats (M:=integer_matrix) (F:=F) qr qraux inmat N
  else compute_residual_stats (M:=numeric_matrix) (F:=F) qr qraux inmat N.
End EntryPoints.

(** ** A projector and a logarithm to run the embedding on *)

(** Modelled from the spec: the Linear-Model Projector of section 4.3
    (scuttle's [linear_model_fit] is not part of the source file).  [qr]
    holds, below the diagonal of column [k], the tail of the Householder
    vector [v_k] (its entry [k] is 1) and [qraux] holds the scalars
    [tau_k]; [multiply] applies the reflections [I - tau_k v_k v_k^T],
    [k = 0 .. ncoefs-1], to the [nobs] values behind the pointer. *)
Record qr_fit : Type := { QR : NumericMatrix; AUX : NumericVector }.

Definition qr_fit_new (qr : NumericMatrix) (qraux : NumericVector) : outcome qr_fit :=
  if decide (length qraux = ncol qr) then
    if decide (ncol qr ≤ nrow qr) then
      if decide (length (elems qr) = nrow qr * ncol qr)
      then Ok {| QR := qr; AUX := qraux |}
      else Fatal "QR matrix does not hold nrow * ncol values"
    else Fatal "more coefficients than observations"
  else Fatal "QR auxiliary vector should be of length ncol(Q)".

(** Entry [i] of the Householder vector of column [k]. *)
Definition householder_entry (qr : NumericMatrix) (k i : nat) : outcome double :=
  if decide (i = k) then Ok 1%float else deref (elems qr) (i + k * nrow qr).

(** [w + sum of v_k[i] * rhs[i]] over [n] entries from [i] on. *)
Fixpoint reflect_dot (qr : NumericMatrix) (k n i : nat) (rhs : NumericVector)
    (w : double) : outcome double :=
  match n with
  | 0 => Ok w
  | S n' =>
      y ← deref rhs i;
      v ← householder_entry qr k i;
      reflect_dot qr k n' (S i) rhs (w + v * y)%float
  end.

(** [rhs[i] += v_k[i] * t] over [n] entries from [i] on. *)
Fixpoint reflect_update (qr : NumericMatrix) (k n i : nat) (rhs : NumericVector)
    (t : double) : outcome NumericVector :=
  match n with
  | 0 => Ok rhs
  | S n' =>
      y ← deref rhs i;
      v ← householder_entry qr k i;
      rhs' ← assign rhs i (y + v * t)%float;
      reflect_update qr k n' (S i) rhs' t
  end.

(** The reflections [k, k+1, ..], [n] of them. *)
Fixpoint reflections (f : qr_fit) (n k : nat) (rhs : NumericVector)
  : outcome NumericVector :=
  match n with
  | 0 => Ok rhs
  | S n' =>
      tau ← deref (AUX f) k;
      w ← reflect_dot (QR f) k (nrow (QR f) - k) k rhs 0%float;
      rhs' ← reflect_update (QR f) k (nrow (QR f) - k) k rhs (- tau * w)%float;
      reflections f n' (S k) rhs'
  end.

Definition qr_fit_multiply (f : qr_fit) (rhs : NumericVector) : outcome NumericVector :=
  reflections f (ncol (QR f)) 0 rhs.

#[global, refine] Instance qr_fit_LinearModelFit : LinearModelFit qr_fit := {|
  linear_model_fit := qr_fit_new;
  get_ncoefs f := ncol (QR f);
  multiply := qr_fit_multiply
|}.
Proof.
  intros f. unfold qr_fit_multiply.
  assert (∀ k n i rhs t rhs',
            reflect_update (QR f) k n i rhs t = Ok rhs' → length rhs' = length rhs)
    as Hupd.
  { intros k. induction n as [|n IH]; intros i rhs t rhs' H; simpl in H.
    - by injection H as <-.
    - destruct (deref rhs i) as [y| |]; simpl in H; [|done..].
      destruct (householder_entry (QR f) k i) as [v| |]; simpl in H; [|done..].
      unfold assign in H. case_decide; simpl in H; [|done].
      apply IH in H. by rewrite length_insert in H. }
  generalize (ncol (QR f)) as n. generalize 0 as k.
  intros k n. revert k.
  induction n as [|n IH]; intros k rhs rhs' H; simpl in H.
  - by injection H as <-.
  - destruct (deref (AUX f) k) as [tau| |]; simpl in H; [|done..].
    destruct (reflect_dot _ _ _ _ _ _) as [w| |]; simpl in H; [|done..].
    destruct (reflect_update _ _ _ _ _ _) as [rhs1| |] eqn:E; simpl in H; [|done..].
    apply IH in H. apply Hupd in E. congruence.
Defined.

(** A natural logarithm to evaluate the transform with, in place of the
    platform's: [x = m * 2^e] with [m] between [sqrt 1/2] and [sqrt 2], and
    [ln m = 2 atanh ((m - 1) / (m + 1))] by its series. *)
Fixpoint atanh_series (n : nat) (k : Z) (t2 : double) : double :=
  match n with
  | 0 => 0%float
  | S n' => (1 / Z_to_double k + t2 * atanh_series n' (k + 2) t2)%float
  end.

Definition series_log (x : double) : double :=
  if (x <? 0)%float then nan
  else if (x =? 0)%float then neg_infinity
  else
    let '(m, e) := Z.frexp x in
    let '(m, e) :=
      if (m <? 0x1.6a09e667f3bcdp-1)%float then ((2 * m)%float, (e - 1)%Z) else (m, e) in
    let t := ((m - 1) / (m + 1))%float in
    (2 * t * atanh_series 20 1 (t * t) + Z_to_double e * M_LN2)%float.


(** ** What the outputs are specified to be *)

(** Sum of squares, added left to right onto [v]. *)
Definition sum_of_squares_onto (v : double) (l : NumericVector) : double :=
  fold_left (λ a x, a + x * x)%float l v.

Definition sum_of_squares (l : NumericVector) : double :=
  sum_of_squares_onto 0%float l.

(** The spec's [sum(buffer) / ncells]. *)
Definition spec_mean (ncells : nat) (buffer : NumericVector) : double :=
  (fold_left PrimFloat.add buffer 0 / size_to_double ncells)%float.

(** The spec's [sum(buffer[ncoefs : ncells]^2) / (ncells - ncoefs)]. *)
Definition spec_variance (ncells ncoefs : nat) (buffer : NumericVector) : double :=
  (sum_of_squares (drop ncoefs (take ncells buffer))
   / size_to_double (ncells - ncoefs))%float.

(** Two encodings of one matrix: the doubles are the integers upcast. *)
Definition same_values (im : dense Z) (rm : dense double) : Prop :=
  d_nrow rm = d_nrow im ∧ d_ncol rm = d_ncol im
  ∧ d_rows rm = fmap (M:=list) (fmap (M:=list) Z_to_double) (d_rows im).

(** The matrix argument as the entry points see it through the encoding
    they select. *)
Definition inmat_nrow (inmat : RObject) : nat :=
  match inmat with
  | IntegerMatrix m => get_nrow (M:=integer_matrix) m
  | RealMatrix m => get_nrow (M:=numeric_matrix) m
  end.

Definition inmat_ncol (inmat : RObject) : nat :=
  match inmat with
  | IntegerMatrix m => get_ncol (M:=integer_matrix) m
  | RealMatrix m => get_ncol (M:=numeric_matrix) m
  end.

Definition inmat_row (inmat : RObject) (r : nat) : outcome NumericVector :=
  match inmat with
  | IntegerMatrix m => get_row (M:=integer_matrix) m r
  | RealMatrix m => get_row (M:=numeric_matrix) m r
  end.

(** The two one-row output matrices hold one value per gene, the buffer
    one value per cell. *)
Definition loop_shape {T : Type} (ngenes ncells : nat) (st : sweep_state T) : Prop :=
  nrow (outvar st) = 1 ∧ ncol (outvar st) = ngenes
  ∧ length (elems (outvar st)) = ngenes
  ∧ nrow (outmean st) = 1 ∧ ncol (outmean st) = ngenes
  ∧ length (elems (outmean st)) = ngenes
  ∧ length (incoming st) = ncells.

(** ** Calls in a session *)

(** A call of [compute_residual_stats_lognorm] from a caller that keeps the
    size factors in a vector of its own: [lognorm] holds a handle to that
    vector, so what the transformer is left with after the loop is what the
    caller finds in it.  The result is the list returned and the vector as
    the call leaves it. *)
Definition call_lognorm (log : double → double) {F : Type} `{!LinearModelFit F}
    (qr : NumericMatrix) (qraux : NumericVector) (inmat : RObject)
    (pseudo : double) (sizefactors : NumericVector)
  : outcome (Rcpp_List * NumericVector) :=
  let rtype := find_sexp_type inmat in
  let LN := lognorm_ctor sizefactors pseudo in
  st ← (if decide (rtype = INTSXP)
        then run_sweep (M:=integer_matrix) (F:=F)
               (HT:=lognorm_transformer log) qr qraux inmat LN
        else run_sweep (M:=numeric_matrix) (F:=F)
               (HT:=lognorm_transformer log) qr qraux inmat LN);
  Ok ((outmean st, outvar st), sf (trans st)).

(** [compute_residual_stats_none] shares nothing with its caller beyond the
    arguments it reads. *)
Definition call_none {F : Type} `{!LinearModelFit F}
    (qr : NumericMatrix) (qraux : NumericVector) (inmat : RObject)
    (s : unit) : outcome (Rcpp_List * unit) :=
  r ← compute_residual_stats_none (F:=F) qr qraux inmat; Ok (r, s).

(** Two calls one after the other, the second on the memory the first
    leaves. *)
Definition two_calls {S R : Type} (call : S → outcome (R * S)) (s : S)
  : outcome (R * R) :=
  '(r1, s1) ← call s;
  '(r2, _) ← call s1;
  Ok (r1, r2).

(** ** Sample inputs *)

(** The factorization of the intercept-only design on four cells: one
    Householder vector [(1, 1/3, 1/3, 1/3)] with [tau = 3/2]. *)
Definition sample_qr : NumericMatrix :=
  {| nrow := 4; ncol := 1; elems := [-2; 1 / 3; 1 / 3; 1 / 3]%float |}.

Definition sample_qraux : NumericVector := [1.5%float].

Definition sample_fit : qr_fit := {| QR := sample_qr; AUX := sample_qraux |}.

Definition sample_matrix : dense double :=
  {| d_nrow := 2; d_ncol := 4;
     d_rows := [[2; 4; 6; 8]%float; [1; 3; 7; 15]%float] |}.

Definition sample_counts : dense Z :=
  {| d_nrow := 2; d_ncol := 4; d_rows := [[2; 4; 6; 8]%Z; [1; 3; 7; 15]%Z] |}.

Definition sample_sf : NumericVector := [1; 1; 1; 1]%float.

(** A saturated model: one cell, one coefficient. *)
Definition saturated_qr : NumericMatrix :=
  {| nrow := 1; ncol := 1; elems := [1%float] |}.

Definition saturated_matrix : dense double :=
  {| d_nrow := 2; d_ncol := 1; d_rows := [[2%float]; [3%float]] |}.

(** A matrix of six cells, two more than [sample_qr] has observations. *)
Definition wide_matrix : dense double :=
  {| d_nrow := 1; d_ncol := 6; d_rows := [[2; 4; 6; 8; 10; 12]%float] |}.

(** The lists the sample calls return, and their two components. *)
Definition means_of (r : outcome Rcpp_List) : NumericMatrix :=
  match r with Ok (means, _) => means | _ => NumericMatrix_new 0 0 end.

Definition vars_of (r : outcome Rcpp_List) : NumericMatrix :=
  match r with Ok (_, vars) => vars | _ => NumericMatrix_new 0 0 end.

Definition sample_none_stats : outcome Rcpp_List :=
  Eval vm_compute in
    compute_residual_stats_none (F:=qr_fit) sample_qr sample_qraux
      (RealMatrix sample_matrix).

Definition saturated_stats : outcome Rcpp_List :=
  Eval vm_compute in
    compute_residual_stats_none (F:=qr_fit) saturated_qr [0%float]
      (RealMatrix saturated_matrix).

(** A matrix of six cells and no rows. *)
Definition empty_matrix : dense double :=
  {| d_nrow := 0; d_ncol := 6; d_rows := [] |}.

Definition sample_lognorm_stats : outcome Rcpp_List :=
  Eval vm_compute in
    compute_residual_stats_lognorm series_log (F:=qr_fit) sample_qr sample_qraux
      (IntegerMatrix sample_counts) sample_sf 1%float.

(** The rows of [sample_matrix] in the other order. *)
Definition swapped_matrix : dense double :=
  {| d_nrow := 2; d_ncol := 4;
     d_rows := [[1; 3; 7; 15]%float; [2; 4; 6; 8]%float] |}.

Definition swapped_none_stats : outcome Rcpp_List :=
  Eval vm_compute in
    compute_residual_stats_none (F:=qr_fit) sample_qr sample_qraux
      (RealMatrix swapped_matrix).

(** A matrix that declares two rows and stores one. *)
Definition truncated_matrix : dense double :=
  {| d_nrow := 2; d_ncol := 4; d_rows := [[2; 4; 6; 8]%float] |}.

(** A matrix of one row and no cells. *)
Definition narrow_matrix : dense double :=
  {| d_nrow := 1; d_ncol := 0; d_rows := [[]] |}.

(** The factorization of a design without coefficients on four cells. *)
Definition plain_qr : NumericMatrix := {| nrow := 4; ncol := 0; elems := [] |}.

Definition plain_none_stats : outcome Rcpp_List :=
  Eval vm_compute in
    compute_residual_stats_none (F:=qr_fit) plain_qr [] (RealMatrix sample_matrix).

(** * Properties *)

(** ** Outcomes *)

Lemma bind_Ok {A B} (m : outcome A) (k : A → outcome B) (b : B) :
  m ≫= k = Ok b ↔ ∃ a, m = Ok a ∧ k a = Ok b.
Proof.
  destruct m as [a| |]; simpl; split.
  - eauto.
  - by intros (a' & [= ->] & ?).
  - discriminate.
  - by intros (? & ? & _).
  - discriminate.
  - by intros (? & ? & _).
Qed.

(** Read a successful run back into its successful steps. *)
Ltac inv_steps H :=
  repeat first
    [ apply bind_Ok in H as (? & ? & H)
    | match type of H with (let '(_, _) := ?p in _) = _ => destruct p end ].

(** ** Iterators *)

Lemma deref_Ok v i x : deref v i = Ok x ↔ v !! i = Some x.
Proof. unfold deref. destruct (v !! i); split; congruence. Qed.

Lemma deref_lt v i : i < length v → ∃ x, deref v i = Ok x ∧ v !! i = Some x.
Proof.
  intros [x Hx]%lookup_lt_is_Some. exists x. split; [|done]. by apply deref_Ok.
Qed.

Lemma deref_ge v i : length v ≤ i → deref v i = Undefined.
Proof. intros H. unfold deref. by rewrite lookup_ge_None_2. Qed.

Lemma deref_not_Fatal v i what : deref v i ≠ Fatal what.
Proof. unfold deref. by destruct (v !! i). Qed.

Lemma assign_Ok v i x v' :
  assign v i x = Ok v' ↔ i < length v ∧ v' = <[i:=x]> v.
Proof.
  unfold assign. case_decide; split.
  - by intros [= <-].
  - by intros [_ ->].
  - discriminate.
  - intros [? _]. lia.
Qed.

Lemma assign_lt v i x : i < length v → assign v i x = Ok (<[i:=x]> v).
Proof. intros H. unfold assign. by rewrite decide_True. Qed.

Lemma assign_not_Fatal v i x what : assign v i x ≠ Fatal what.
Proof. unfold assign. by case_decide. Qed.

Lemma write_from_begin_full v row :
  length row = length v → write_from_begin v row = Ok row.
Proof.
  intros H. unfold write_from_begin. rewrite decide_True by lia.
  by rewrite drop_ge, app_nil_r by lia.
Qed.

Lemma write_from_begin_not_Fatal v row what : write_from_begin v row ≠ Fatal what.
Proof. unfold write_from_begin. by case_decide. Qed.

Lemma size_sub_le a b :
  b ≤ a → (Z.of_nat a < 2 ^ 64)%Z → size_sub a b = Z.of_nat (a - b).
Proof. intros Hle Ha. unfold size_sub. rewrite Z.mod_small; lia. Qed.

Lemma size_sub_diag a : size_sub a a = 0%Z.
Proof. unfold size_sub. by rewrite Z.sub_diag. Qed.

(** ** The log-normalize transform *)

Section LognormFacts.
Variable log : double → double.

(** The loop over [n] cells from [start] on: the cells of the range are
    replaced, each paired with the size factor as far from [sfIt] as the
    cell is from [start]; the cells around the range stay. *)
Lemma lognorm_loop_Ok LN n start sfIt buf :
  start + n ≤ length buf → sfIt + n ≤ length (sf LN) →
  ∃ buf', lognorm_loop log LN n start sfIt buf = Ok buf'
    ∧ length buf' = length buf
    ∧ (∀ j, j < start ∨ start + n ≤ j → buf' !! j = buf !! j)
    ∧ (∀ j x s, start ≤ j < start + n → buf !! j = Some x →
         sf LN !! (sfIt + (j - start)) = Some s →
         buf' !! j = Some (lognorm_cell log (ps LN) x s)).
Proof.
  revert start sfIt buf.
  induction n as [|n IH]; intros start sfIt buf Hb Hs; simpl.
  - exists buf. split_and!; [done | done | done | intros; lia].
  - destruct (deref_lt buf start) as (x0 & -> & Hx0); [lia|].
    destruct (deref_lt (sf LN) sfIt) as (s0 & -> & Hs0); [lia|]. simpl.
    rewrite assign_lt by lia. simpl.
    set (buf1 := <[start:=lognorm_cell log (ps LN) x0 s0]> buf).
    destruct (IH (S start) (S sfIt) buf1) as (buf' & -> & Hlen & Hout & Hin).
    { unfold buf1. rewrite length_insert. lia. }
    { lia. }
    exists buf'. unfold buf1 in *. rewrite length_insert in Hlen.
    split_and!; [done | done | |].
    + intros j Hj. rewrite Hout by lia. apply list_lookup_insert_ne. lia.
    + intros j x s Hj Hx Hsj. destruct (decide (j = start)) as [->|Hne].
      * rewrite Hout by lia. rewrite list_lookup_insert_eq by lia.
        replace (sfIt + (start - start)) with sfIt in Hsj by lia. congruence.
      * apply Hin; [lia | by rewrite list_lookup_insert_ne |].
        by replace (S sfIt + (j - S start)) with (sfIt + (j - start)) by lia.
Qed.

(** With fewer size factors left than cells, the read of a size factor
    leaves the vector. *)
Lemma lognorm_loop_short LN n start sfIt buf :
  start + n ≤ length buf → sfIt ≤ length (sf LN) → length (sf LN) < sfIt + n →
  lognorm_loop log LN n start sfIt buf = Undefined.
Proof.
  revert start sfIt buf.
  induction n as [|n IH]; intros start sfIt buf Hb Hle Hs; simpl; [lia|].
  destruct (deref_lt buf start) as (x0 & -> & _); [lia|]. simpl.
  destruct (decide (sfIt = length (sf LN))) as [->|Hne].
  - by rewrite deref_ge.
  - destruct (deref_lt (sf LN) sfIt) as (s0 & -> & _); [lia|]. simpl.
    rewrite assign_lt by lia. simpl.
    apply IH; [rewrite length_insert|..]; lia.
Qed.

Lemma lognorm_op_Ok LN buf :
  length buf ≤ length (sf LN) →
  ∃ buf', lognorm_op log LN buf = Ok (LN, buf')
    ∧ length buf' = length buf
    ∧ (∀ j x s, buf !! j = Some x → sf LN !! j = Some s →
         buf' !! j = Some (lognorm_cell log (ps LN) x s)).
Proof.
  intros H. unfold lognorm_op.
  destruct (lognorm_loop_Ok LN (length buf) 0 0 buf) as (buf' & -> & Hlen & _ & Hin);
    [lia.. |].
  exists buf'. split_and!; [done | done |].
  intros j x s Hx Hs. apply Hin; [|done|].
  - apply lookup_lt_Some in Hx. lia.
  - by replace (0 + (j - 0)) with j by lia.
Qed.

Lemma lognorm_op_short LN buf :
  length (sf LN) < length buf → lognorm_op log LN buf = Undefined.
Proof.
  intros H. unfold lognorm_op. rewrite lognorm_loop_short; [done | lia..].
Qed.

(** The transformer object comes out of a call as it went in. *)
Lemma lognorm_op_stateless LN buf LN' buf' :
  lognorm_op log LN buf = Ok (LN', buf') → LN' = LN.
Proof. unfold lognorm_op. intros H. inv_steps H. by injection H as <- _. Qed.

(** C4, as the code has it.  The log-normalize transform replaces the value
    [x] of every cell [j] of the row buffer with
    [std::log (x / sizeFactor[j] + pseudocount) / M_LN2], the natural
    logarithm of the platform over the double nearest to [ln 2], size
    factors paired with cells by position, and leaves the length of the
    buffer alone; for a row of equal values [x0] under one size factor [s0]
    every cell comes out as the one double
    [std::log (x0 / s0 + pseudocount) / M_LN2]. *)
Theorem lognorm_replaces_each_cell (LN : lognorm) (buf : NumericVector) :
  length buf ≤ length (sf LN) →
  ∃ buf', lognorm_op log LN buf = Ok (LN, buf')
    ∧ length buf' = length buf
    ∧ (∀ j x s, buf !! j = Some x → sf LN !! j = Some s →
         buf' !! j = Some (log (x / s + ps LN) / M_LN2)%float)
    ∧ (∀ x0 s0, buf = replicate (length buf) x0 →
         sf LN = replicate (length (sf LN)) s0 →
         buf' = replicate (length buf) (log (x0 / s0 + ps LN) / M_LN2)%float).
Proof.
  intros H. destruct (lognorm_op_Ok LN buf H) as (buf' & Hop & Hlen & Hcell).
  exists buf'. split_and!; [done | done | exact Hcell |].
  intros x0 s0 Hbuf Hsf. apply list_eq. intros j.
  destruct (decide (j < length buf)) as [Hj|Hj].
  - rewrite lookup_replicate_2 by done. apply Hcell.
    + rewrite Hbuf. by apply lookup_replicate_2.
    + rewrite Hsf. apply lookup_replicate_2. lia.
  - rewrite !lookup_ge_None_2; [done | rewrite length_replicate; lia | lia].
Qed.

(** C8. The identity transform hands the buffer back value for value; and
    a call of either transform changes nothing but the values of the
    buffer: the transformer object is as before, the buffer is as long as
    before, and the call yields nothing else.  (The log-normalize call does
    so whenever it stays inside the size-factor vector; it raises no
    error.) *)
Theorem transforms_change_only_buffer_values (N : none) (LN : lognorm)
    (buf : NumericVector) :
  none_op N buf = Ok (N, buf)
  ∧ transform N buf = none_op N buf
  ∧ transform (Transformer:=lognorm_transformer log) LN buf = lognorm_op log LN buf
  ∧ (lognorm_op log LN buf = Undefined
     ∨ ∃ buf', lognorm_op log LN buf = Ok (LN, buf') ∧ length buf' = length buf).
Proof.
  split_and!; [done | done | done |].
  destruct (decide (length buf ≤ length (sf LN))) as [H|H].
  - right. destruct (lognorm_op_Ok LN buf H) as (buf' & ? & ? & _). eauto.
  - left. apply lognorm_op_short. lia.
Qed.

End LognormFacts.

(** ** The residual loop *)

Lemma residual_loop_Ok n iIt buf v :
  iIt + n ≤ length buf →
  residual_loop n iIt buf v = Ok (sum_of_squares_onto v (take n (drop iIt buf))).
Proof.
  revert iIt v. induction n as [|n IH]; intros iIt v H; simpl.
  - done.
  - destruct (deref_lt buf iIt) as (x & -> & Hx); [lia|]. simpl.
    rewrite IH by lia. by rewrite (drop_S _ _ _ Hx).
Qed.

Lemma residual_loop_not_Fatal n iIt buf v what :
  residual_loop n iIt buf v ≠ Fatal what.
Proof.
  revert iIt v. induction n as [|n IH]; intros iIt v; simpl; [done|].
  destruct (deref buf iIt) eqn:E; simpl; [apply IH | | done].
  by apply deref_not_Fatal in E.
Qed.

Lemma residual_sum_Ok ncoefs buf v :
  ncoefs ≤ length buf →
  residual_sum ncoefs buf v = Ok (sum_of_squares_onto v (drop ncoefs buf)).
Proof.
  intros H. unfold residual_sum. rewrite decide_True by done.
  rewrite residual_loop_Ok by lia.
  by rewrite take_ge by (rewrite length_drop; lia).
Qed.

Lemma residual_sum_inv ncoefs buf v v' :
  residual_sum ncoefs buf v = Ok v' →
  ncoefs ≤ length buf ∧ v' = sum_of_squares_onto v (drop ncoefs buf).
Proof.
  intros H. destruct (decide (ncoefs ≤ length buf)) as [Hle|Hgt].
  - rewrite residual_sum_Ok in H by done. by injection H as <-.
  - unfold residual_sum in H. by rewrite decide_False in H.
Qed.

Lemma residual_sum_not_Fatal ncoefs buf v what :
  residual_sum ncoefs buf v ≠ Fatal what.
Proof.
  unfold residual_sum. case_decide; [apply residual_loop_not_Fatal | done].
Qed.

(** ** The driver *)

Section DriverFacts.
Context {M : Type} {HM : Matrix M}.
Context {F : Type} {HF : LinearModelFit F}.
Context {T : Type} {HT : Transformer T}.

Implicit Types (emat : M) (fitter : F) (st : sweep_state T).

Lemma sweep_init_shape (tr : T) ngenes ncells :
  loop_shape ngenes ncells (sweep_init tr ngenes ncells).
Proof.
  unfold loop_shape, sweep_init, NumericMatrix_new; simpl.
  rewrite !length_replicate. split_and!; lia.
Qed.

(** The buffer of a row is [ncells] long at every stage. *)
Lemma row_lengths emat fitter (t t' : T) i row buf p :
  get_row emat i = Ok row → transform t row = Ok (t', buf) →
  multiply fitter buf = Ok p →
  length row = get_ncol emat ∧ length buf = get_ncol emat ∧ length p = get_ncol emat.
Proof.
  intros Hrow Htr Hmul.
  apply get_row_length in Hrow. apply transform_length in Htr.
  apply multiply_length in Hmul. split_and!; congruence.
Qed.

(** The row read fills the buffer. *)
Lemma row_fills_buffer emat c row st ngenes :
  get_row emat c = Ok row → loop_shape ngenes (get_ncol emat) st →
  write_from_begin (incoming st) row = Ok row.
Proof.
  intros Hrow (_ & _ & _ & _ & _ & _ & Hinc).
  apply write_from_begin_full. apply get_row_length in Hrow. congruence.
Qed.

(** One iteration, read off its result. *)
Lemma row_step_inv emat fitter ncells ncoefs c ngenes st st' :
  row_step emat fitter ncells ncoefs c st = Ok st' →
  loop_shape ngenes (get_ncol emat) st →
  ∃ row buf p v0,
    get_row emat c = Ok row
    ∧ transform (trans st) row = Ok (trans st', buf)
    ∧ multiply fitter buf = Ok p
    ∧ incoming st' = p
    ∧ ncoefs ≤ length p
    ∧ c < ngenes
    ∧ elems (outvar st) !! c = Some v0
    ∧ elems (outmean st') = <[c := (accumulate buf 0 / size_to_double ncells)%float]> (elems (outmean st))
    ∧ elems (outvar st') =
        <[c := (sum_of_squares_onto v0 (drop ncoefs p)
                / Z_to_double (size_sub ncells ncoefs))%float]> (elems (outvar st))
    ∧ loop_shape ngenes (get_ncol emat) st'.
Proof.
  intros H Hsh. pose proof Hsh as (Hv1 & Hv2 & Hv3 & Hm1 & Hm2 & Hm3 & Hinc).
  unfold row_step in H.
  destruct (get_row emat c) as [row| |] eqn:Hrow; simpl in H; [|done..].
  rewrite (row_fills_buffer _ _ _ _ _ Hrow Hsh) in H. simpl in H.
  unfold column_begin in H. rewrite Hv1, Hm1, Nat.mul_1_r in H.
  destruct (transform (trans st) row) as [[tr buf]| |] eqn:Htr; simpl in H; [|done..].
  inv_steps H. injection H as <-. simpl.
  repeat match goal with
         | E : assign _ _ _ = Ok _ |- _ => apply assign_Ok in E as [? ->]
         | E : deref _ _ = Ok _ |- _ => apply deref_Ok in E
         | E : residual_sum _ _ _ = Ok _ |- _ => apply residual_sum_inv in E as [? ->]
         end.
  match goal with E : multiply fitter buf = Ok ?p |- _ =>
    destruct (row_lengths _ _ _ _ _ _ _ _ Hrow Htr E) as (_ & _ & Hp) end.
  eexists _, _, _, _. split_and!; try done; try lia.
  unfold loop_shape; simpl. rewrite !length_insert. split_and!; done.
Qed.

Lemma row_step_Fatal emat fitter ncells ncoefs c st what :
  row_step emat fitter ncells ncoefs c st = Fatal what →
  get_row emat c = Fatal what
  ∨ (∃ row, transform (trans st) row = Fatal what)
  ∨ (∃ buf, multiply fitter buf = Fatal what).
Proof.
  unfold row_step. intros H.
  destruct (get_row emat c) as [row| |] eqn:Erow; simpl in H; [|left; congruence|done].
  destruct (write_from_begin _ _) as [buf0| |] eqn:Ew in H; simpl in H;
    [|by apply write_from_begin_not_Fatal in Ew|done].
  destruct (transform (trans st) buf0) as [[tr buf]| |] eqn:Etr; simpl in H;
    [|right; left; exists buf0; congruence|done].
  destruct (assign _ _ _) eqn:Eom in H; simpl in H;
    [|by apply assign_not_Fatal in Eom|done].
  destruct (multiply fitter buf) as [p| |] eqn:Ep; simpl in H;
    [|right; right; exists buf; congruence|done].
  destruct (deref _ _) eqn:Ev in H; simpl in H;
    [|by apply deref_not_Fatal in Ev|done].
  destruct (residual_sum _ _ _) eqn:Ers in H; simpl in H;
    [|by apply residual_sum_not_Fatal in Ers|done].
  destruct (assign _ _ _) eqn:Eov in H; simpl in H;
    [done|by apply assign_not_Fatal in Eov|done].
Qed.

(** The loop, cut after [a] iterations. *)
Lemma sweep_app emat fitter ncells ncoefs a b c st :
  sweep emat fitter ncells ncoefs (a + b) c st
  = sweep emat fitter ncells ncoefs a c st ≫= sweep emat fitter ncells ncoefs b (c + a).
Proof.
  revert c st. induction a as [|a IH]; intros c st; simpl.
  - by rewrite Nat.add_0_r.
  - destruct (row_step emat fitter ncells ncoefs c st) as [st1| |]; simpl; [|done..].
    rewrite IH. by replace (S c + a) with (c + S a) by lia.
Qed.

(** Iterations [c .. c+n-1] leave every other entry alone. *)
Lemma sweep_frame emat fitter ncells ncoefs ngenes n c st st' :
  sweep emat fitter ncells ncoefs n c st = Ok st' →
  loop_shape ngenes (get_ncol emat) st →
  loop_shape ngenes (get_ncol emat) st'
  ∧ (n ≠ 0 → c + n ≤ ngenes)
  ∧ ∀ i, i < c ∨ c + n ≤ i →
      elems (outvar st') !! i = elems (outvar st) !! i
      ∧ elems (outmean st') !! i = elems (outmean st) !! i.
Proof.
  revert c st. induction n as [|n IH]; intros c st H Hsh; simpl in H.
  - injection H as <-. split_and!; [done | lia | done].
  - apply bind_Ok in H as (st1 & H1 & H).
    destruct (row_step_inv _ _ _ _ _ _ _ _ H1 Hsh)
      as (row & buf & p & v0 & _ & _ & _ & _ & _ & Hc & _ & Hm & Hv & Hsh1).
    destruct (IH _ _ H Hsh1) as (Hsh' & Hn & Hfr).
    split_and!; [done | destruct n; lia |].
    intros i Hi. destruct (Hfr i) as [-> ->]; [lia|].
    rewrite Hm, Hv, !list_lookup_insert_ne by lia. done.
Qed.

Lemma sweep_Fatal emat fitter ncells ncoefs n c st what :
  sweep emat fitter ncells ncoefs n c st = Fatal what →
  ∃ c' st', row_step emat fitter ncells ncoefs c' st' = Fatal what.
Proof.
  revert c st. induction n as [|n IH]; intros c st H; simpl in H; [done|].
  destruct (row_step emat fitter ncells ncoefs c st) as [st1| |] eqn:E; simpl in H.
  - by eapply IH.
  - exists c, st. congruence.
  - done.
Qed.

(** Entry [i] of the outputs of a loop of [n > i] iterations from the start:
    untouched until iteration [i], written by it from row [i], and left
    alone by the iterations after it. *)
Lemma sweep_entry emat fitter ncells ncoefs ngenes n st0 st' i :
  sweep emat fitter ncells ncoefs n 0 st0 = Ok st' →
  loop_shape ngenes (get_ncol emat) st0 → i < n →
  ∃ st_i st_i1 row buf p v0,
    sweep emat fitter ncells ncoefs i 0 st0 = Ok st_i
    ∧ row_step emat fitter ncells ncoefs i st_i = Ok st_i1
    ∧ get_row emat i = Ok row
    ∧ transform (trans st_i) row = Ok (trans st_i1, buf)
    ∧ multiply fitter buf = Ok p
    ∧ ncoefs ≤ length p
    ∧ i < ngenes
    ∧ elems (outvar st0) !! i = Some v0
    ∧ elems (outvar st_i) !! i = elems (outvar st0) !! i
    ∧ elems (outmean st_i) !! i = elems (outmean st0) !! i
    ∧ elems (outvar st') !! i = elems (outvar st_i1) !! i
    ∧ elems (outmean st') !! i = elems (outmean st_i1) !! i
    ∧ elems (outmean st') !! i
      = Some (accumulate buf 0 / size_to_double ncells)%float
    ∧ elems (outvar st') !! i
      = Some (sum_of_squares_onto v0 (drop ncoefs p)
              / Z_to_double (size_sub ncells ncoefs))%float.
Proof.
  intros H Hsh Hi.
  replace n with (i + S (n - S i)) in H by lia.
  rewrite sweep_app in H. apply bind_Ok in H as (st_i & Hpre & H).
  simpl in H. apply bind_Ok in H as (st_i1 & Hstep & Hpost).
  destruct (sweep_frame _ _ _ _ _ _ _ _ _ Hpre Hsh) as (Hsh_i & _ & Hfr_i).
  destruct (row_step_inv _ _ _ _ _ _ _ _ Hstep Hsh_i)
    as (row & buf & p & v0 & Hrow & Htr & Hmul & _ & Hlen & Hlt & Hv0 & Hm & Hv & Hsh_i1).
  destruct (sweep_frame _ _ _ _ _ _ _ _ _ Hpost Hsh_i1) as (_ & _ & Hfr).
  destruct (Hfr_i i) as [Hvi Hmi]; [lia|].
  destruct (Hfr i) as [Hv' Hm']; [lia|].
  destruct Hsh_i as (_ & _ & Hlv & _ & _ & Hlm & _).
  exists st_i, st_i1, row, buf, p, v0.
  split_and!; try done.
  - congruence.
  - rewrite Hm', Hm. apply list_lookup_insert_eq. lia.
  - rewrite Hv', Hv. apply list_lookup_insert_eq. lia.
Qed.

(** A call that returns has gone through the whole loop. *)
Lemma compute_residual_stats_inv qr qraux inmat (tr : T) emat fitter means vars :
  create_matrix inmat = Ok emat →
  linear_model_fit qr qraux = Ok fitter →
  compute_residual_stats qr qraux inmat tr = Ok (means, vars) →
  ∃ st,
    run_sweep qr qraux inmat tr = Ok st
    ∧ sweep emat fitter (get_ncol emat) (get_ncoefs fitter) (get_nrow emat) 0
        (sweep_init tr (get_nrow emat) (get_ncol emat)) = Ok st
    ∧ means = outmean st ∧ vars = outvar st.
Proof.
  intros Hm Hf H. unfold compute_residual_stats in H.
  apply bind_Ok in H as (st & Hrun & [= <- <-]).
  exists st. split_and!; [done | | done | done].
  unfold run_sweep in Hrun. by rewrite Hm, Hf in Hrun.
Qed.

(** C1. For every row [i], when there are fewer coefficients than cells,
    [variance[i]] of a call that returns is the sum of the squares of the
    entries [ncoefs .. ncells-1] of the row buffer, as the projector leaves
    it after the transform, over [ncells - ncoefs]; the first [ncoefs]
    entries take no part.  [st] is the state of the loop on entry to
    iteration [i]. *)
Theorem variance_is_residual_mean_square qr qraux inmat (tr : T) emat fitter
    (means vars : NumericMatrix) (i : nat) :
  create_matrix inmat = Ok emat →
  linear_model_fit qr qraux = Ok fitter →
  compute_residual_stats qr qraux inmat tr = Ok (means, vars) →
  i < get_nrow emat →
  get_ncoefs fitter < get_ncol emat →
  (Z.of_nat (get_ncol emat) < 2 ^ 64)%Z →
  ∃ st row tr' buf p,
    sweep emat fitter (get_ncol emat) (get_ncoefs fitter) i 0
      (sweep_init tr (get_nrow emat) (get_ncol emat)) = Ok st
    ∧ get_row emat i = Ok row
    ∧ transform (trans st) row = Ok (tr', buf)
    ∧ multiply fitter buf = Ok p
    ∧ length p = get_ncol emat
    ∧ elems vars !! i = Some (spec_variance (get_ncol emat) (get_ncoefs fitter) p).
Proof.
  intros Hm Hf Hcall Hi Hdf Hsize.
  destruct (compute_residual_stats_inv _ _ _ _ _ _ _ _ Hm Hf Hcall)
    as (st' & _ & Hsweep & -> & ->).
  destruct (sweep_entry _ _ _ _ _ _ _ _ i Hsweep (sweep_init_shape _ _ _) Hi)
    as (st_i & st_i1 & row & buf & p & v0 & Hpre & _ & Hrow & Htr & Hmul & _ & _
        & Hv0 & _ & _ & _ & _ & _ & Hvar).
  destruct (row_lengths _ _ _ _ _ _ _ _ Hrow Htr Hmul) as (_ & _ & Hp).
  exists st_i, row, (trans st_i1), buf, p. split_and!; try done.
  rewrite Hvar. simpl in Hv0. apply lookup_replicate in Hv0 as [-> _].
  unfold spec_variance, sum_of_squares.
  rewrite size_sub_le by lia. by rewrite take_ge by lia.
Qed.

(** C2. For every row [i], [mean[i]] of a call that returns is the sum of
    the row buffer over [ncells], taken on the values [buf] that the
    transform leaves in the buffer and that the projector is then given,
    not on the row [row] as read from the matrix. *)
Theorem mean_is_of_transformed_row qr qraux inmat (tr : T) emat fitter
    (means vars : NumericMatrix) (i : nat) :
  create_matrix inmat = Ok emat →
  linear_model_fit qr qraux = Ok fitter →
  compute_residual_stats qr qraux inmat tr = Ok (means, vars) →
  i < get_nrow emat →
  ∃ st row tr' buf p,
    sweep emat fitter (get_ncol emat) (get_ncoefs fitter) i 0
      (sweep_init tr (get_nrow emat) (get_ncol emat)) = Ok st
    ∧ get_row emat i = Ok row
    ∧ transform (trans st) row = Ok (tr', buf)
    ∧ multiply fitter buf = Ok p
    ∧ length buf = get_ncol emat
    ∧ elems means !! i = Some (spec_mean (get_ncol emat) buf).
Proof.
  intros Hm Hf Hcall Hi.
  destruct (compute_residual_stats_inv _ _ _ _ _ _ _ _ Hm Hf Hcall)
    as (st' & _ & Hsweep & -> & ->).
  destruct (sweep_entry _ _ _ _ _ _ _ _ i Hsweep (sweep_init_shape _ _ _) Hi)
    as (st_i & st_i1 & row & buf & p & v0 & Hpre & _ & Hrow & Htr & Hmul & _ & _
        & _ & _ & _ & _ & _ & Hmean & _).
  destruct (row_lengths _ _ _ _ _ _ _ _ Hrow Htr Hmul) as (_ & Hb & _).
  exists st_i, row, (trans st_i1), buf, p. by split_and!.
Qed.

(** C7, as the code has it.  The factorization is checked once, before the
    row loop, by the projector's constructor, which sees [qr] and [qraux]
    and not the matrix: when it fails the call fails with its error,
    whatever the matrix holds, and returns nothing.  When it succeeds the
    driver compares no dimension of the factorization with the matrix: on a
    matrix without rows the call returns two empty outputs whatever the
    column count, and otherwise an error can only come from reading,
    transforming or projecting a row. *)
Theorem factorization_checked_by_constructor_alone qr qraux inmat (tr : T) emat :
  create_matrix inmat = Ok emat →
  (∀ what, linear_model_fit (F:=F) qr qraux = Fatal what →
     compute_residual_stats qr qraux inmat tr = Fatal what)
  ∧ (∀ fitter, linear_model_fit qr qraux = Ok fitter →
       (get_nrow emat = 0 →
          compute_residual_stats qr qraux inmat tr
          = Ok (NumericMatrix_new 1 0, NumericMatrix_new 1 0))
       ∧ (∀ what, compute_residual_stats qr qraux inmat tr = Fatal what →
            (∃ c, get_row emat c = Fatal what)
            ∨ (∃ t row, transform (T:=T) t row = Fatal what)
            ∨ (∃ buf, multiply fitter buf = Fatal what))).
Proof.
  intros Hm. split.
  - intros what Hf. unfold compute_residual_stats, run_sweep.
    by rewrite Hm, Hf.
  - intros fitter Hf. split.
    + intros H0. unfold compute_residual_stats, run_sweep.
      rewrite Hm, Hf. simpl. by rewrite H0.
    + intros what H. unfold compute_residual_stats, run_sweep in H.
      rewrite Hm, Hf in H. simpl in H.
      destruct (sweep _ _ _ _ _ _ _) as [st| |] eqn:E; simpl in H; [done| |done].
      injection H as ->. apply sweep_Fatal in E as (c & st & E).
      apply row_step_Fatal in E as [E|[[row E]|[buf E]]]; eauto 10.
Qed.

(** The stores of the residual loop: as many as cells past [ncoefs], the
    last of them the sum of squares. *)
Lemma accumulation_stores_Ok n iIt buf v :
  iIt + n ≤ length buf →
  ∃ acc, accumulation_stores n iIt buf v = Ok acc
    ∧ length acc = n
    ∧ default v (last acc) = sum_of_squares_onto v (take n (drop iIt buf)).
Proof.
  revert iIt v. induction n as [|n IH]; intros iIt v H; simpl.
  - by exists [].
  - destruct (deref_lt buf iIt) as (x & -> & Hx); [lia|]. simpl.
    destruct (IH (S iIt) (v + x * x)%float) as (rest & -> & Hlen & Hlast); [lia|].
    simpl. eexists. split_and!; [done | by rewrite <- Hlen |].
    rewrite (drop_S _ _ _ Hx). simpl. rewrite <- Hlast, last_cons.
    by destruct (last rest).
Qed.

Lemma variance_stores_Ok ncells ncoefs buf v :
  ncoefs ≤ length buf →
  ∃ stores, variance_stores ncells ncoefs buf v = Ok stores
    ∧ length stores = length buf - ncoefs + 1
    ∧ last stores
      = Some (sum_of_squares_onto v (drop ncoefs buf)
              / Z_to_double (size_sub ncells ncoefs))%float.
Proof.
  intros H. unfold variance_stores. rewrite decide_True by done.
  destruct (accumulation_stores_Ok (length buf - ncoefs) ncoefs buf v)
    as (acc & -> & Hlen & Hlast); [lia|].
  simpl. eexists. split_and!; [done | rewrite length_app; simpl; lia |].
  rewrite last_snoc, Hlast. by rewrite take_ge by (rewrite length_drop; lia).
Qed.

(** C9, as the code has it.  A call that returns gives two one-row
    matrices, means first and variances second, each of [ngenes] values:
    they are the [outmean] and [outvar] of the state the loop ends in, as
    they are.  Entry [i] belongs to row [i]: the mean is the mean of the
    transformed row [i], the variance the residual mean square of the
    projected one.  Both are zero until iteration [i]; iteration [i] stores
    the mean once and leaves in the variance entry one value for each
    residual cell and then the quotient, [ncells - ncoefs + 1] stores in
    all, the last of which is what is returned; no later iteration touches
    either. *)
Theorem outputs_are_two_row_aligned_sequences qr qraux inmat (tr : T) emat
    (means vars : NumericMatrix) :
  create_matrix inmat = Ok emat →
  compute_residual_stats qr qraux inmat tr = Ok (means, vars) →
  (nrow means = 1 ∧ ncol means = get_nrow emat
   ∧ length (elems means) = get_nrow emat)
  ∧ (nrow vars = 1 ∧ ncol vars = get_nrow emat
     ∧ length (elems vars) = get_nrow emat)
  ∧ (∃ st, run_sweep qr qraux inmat tr = Ok st
       ∧ (means, vars) = (outmean st, outvar st))
  ∧ ∃ fitter, linear_model_fit qr qraux = Ok fitter
      ∧ ∀ i, i < get_nrow emat →
          ∃ st_i st_i1 row buf p stores,
            sweep emat fitter (get_ncol emat) (get_ncoefs fitter) i 0
              (sweep_init tr (get_nrow emat) (get_ncol emat)) = Ok st_i
            ∧ row_step emat fitter (get_ncol emat) (get_ncoefs fitter) i st_i
              = Ok st_i1
            ∧ get_row emat i = Ok row
            ∧ transform (trans st_i) row = Ok (trans st_i1, buf)
            ∧ multiply fitter buf = Ok p
            ∧ elems (outmean st_i) !! i = Some 0%float
            ∧ elems (outvar st_i) !! i = Some 0%float
            ∧ variance_stores (get_ncol emat) (get_ncoefs fitter) p 0 = Ok stores
            ∧ length stores = get_ncol emat - get_ncoefs fitter + 1
            ∧ elems (outmean st_i1) !! i = Some (spec_mean (get_ncol emat) buf)
            ∧ elems (outvar st_i1) !! i = last stores
            ∧ elems means !! i = Some (spec_mean (get_ncol emat) buf)
            ∧ elems vars !! i = last stores
            ∧ last stores
              = Some (sum_of_squares (drop (get_ncoefs fitter) p)
                      / Z_to_double (size_sub (get_ncol emat) (get_ncoefs fitter)))%float.
Proof.
  intros Hm Hcall.
  destruct (linear_model_fit (F:=F) qr qraux) as [fitter| |] eqn:Hf;
    [|unfold compute_residual_stats, run_sweep in Hcall;
      rewrite Hm, Hf in Hcall; done..].
  destruct (compute_residual_stats_inv _ _ _ _ _ _ _ _ Hm Hf Hcall)
    as (st' & Hrun & Hsweep & -> & ->).
  destruct (sweep_frame _ _ _ _ _ _ _ _ _ Hsweep (sweep_init_shape _ _ _))
    as ((Hv1 & Hv2 & Hv3 & Hm1 & Hm2 & Hm3 & _) & _ & _).
  split_and!; try done.
  { by exists st'. }
  exists fitter. split; [done|]. intros i Hi.
  destruct (sweep_entry _ _ _ _ _ _ _ _ i Hsweep (sweep_init_shape _ _ _) Hi)
    as (st_i & st_i1 & row & buf & p & v0 & Hpre & Hstep & Hrow & Htr & Hmul
        & Hlen & _ & Hv0 & Hvi & Hmi & Hvf & Hmf & Hmean & Hvar).
  destruct (row_lengths _ _ _ _ _ _ _ _ Hrow Htr Hmul) as (_ & _ & Hp).
  simpl in Hv0. apply lookup_replicate in Hv0 as [-> _].
  destruct (variance_stores_Ok (get_ncol emat) (get_ncoefs fitter) p 0%float Hlen)
    as (stores & Hstores & Hcount & Hlast).
  exists st_i, st_i1, row, buf, p, stores. rewrite Hp in Hcount.
  split_and!; try done.
  - rewrite Hmi. simpl. apply lookup_replicate_2. lia.
  - rewrite Hvi. simpl. apply lookup_replicate_2. lia.
  - by rewrite <- Hmf.
  - by rewrite <- Hvf, Hvar.
  - by rewrite Hvar.
Qed.

(** A transformer that comes out of every call as it went in is, after the
    loop, the one the loop started with. *)
Lemma row_step_trans emat fitter ncells ncoefs c st st' :
  row_step emat fitter ncells ncoefs c st = Ok st' →
  ∃ buf0 buf, transform (trans st) buf0 = Ok (trans st', buf).
Proof.
  unfold row_step. intros H. inv_steps H. injection H as <-. simpl. eauto.
Qed.

Lemma sweep_trans emat fitter ncells ncoefs n c st st' :
  (∀ (t : T) buf t' buf', transform t buf = Ok (t', buf') → t' = t) →
  sweep emat fitter ncells ncoefs n c st = Ok st' → trans st' = trans st.
Proof.
  intros Hpure. revert c st. induction n as [|n IH]; intros c st H; simpl in H.
  - by injection H as <-.
  - apply bind_Ok in H as (st1 & H1 & H). apply IH in H.
    apply row_step_trans in H1 as (buf0 & buf & H1). apply Hpure in H1. congruence.
Qed.

Lemma run_sweep_trans qr qraux inmat (tr : T) st :
  (∀ (t : T) buf t' buf', transform t buf = Ok (t', buf') → t' = t) →
  run_sweep qr qraux inmat tr = Ok st → trans st = tr.
Proof.
  intros Hpure H. unfold run_sweep in H. inv_steps H.
  by apply sweep_trans in H.
Qed.

(** A row whose transform leaves its vectors takes the call with it. *)
Lemma row_step_transform_Undefined emat fitter ncells ncoefs ngenes c st row :
  loop_shape ngenes (get_ncol emat) st →
  get_row emat c = Ok row → transform (trans st) row = Undefined →
  row_step emat fitter ncells ncoefs c st = Undefined.
Proof.
  intros Hsh Hrow Htr. unfold row_step. rewrite Hrow. simpl.
  rewrite (row_fills_buffer _ _ _ _ _ Hrow Hsh). simpl. by rewrite Htr.
Qed.

Lemma first_row_Undefined qr qraux inmat (tr : T) emat fitter row :
  create_matrix inmat = Ok emat →
  linear_model_fit qr qraux = Ok fitter →
  0 < get_nrow emat → get_row emat 0 = Ok row → transform tr row = Undefined →
  compute_residual_stats qr qraux inmat tr = Undefined.
Proof.
  intros Hm Hf Hn Hrow Htr. unfold compute_residual_stats, run_sweep.
  rewrite Hm, Hf. simpl. destruct (get_nrow emat) as [|n]; [lia|]. simpl.
  rewrite (row_step_transform_Undefined _ _ _ _ (S n) _ _ row);
    [done | apply sweep_init_shape | done | done].
Qed.
(** With as many cells as coefficients or more, a transformer that keeps
    its state, and rows that are read, transformed and projected without
    failure, the loop runs to its end. *)
Lemma sweep_returns emat fitter ncoefs ngenes n c st :
  (∀ (t : T) buf t' buf', transform t buf = Ok (t', buf') → t' = t) →
  loop_shape ngenes (get_ncol emat) st → c + n ≤ ngenes → ncoefs ≤ get_ncol emat →
  (∀ i, c ≤ i < c + n →
     ∃ row buf p, get_row emat i = Ok row
       ∧ transform (trans st) row = Ok (trans st, buf)
       ∧ multiply fitter buf = Ok p) →
  ∃ st', sweep emat fitter (get_ncol emat) ncoefs n c st = Ok st'.
Proof.
  intros Hpure. revert c st.
  induction n as [|n IH]; intros c st Hsh Hc Hdf Hrows; simpl; [by eexists|].
  destruct (Hrows c) as (row & buf & p & Hrow & Htr & Hmul); [lia|].
  destruct (row_lengths _ _ _ _ _ _ _ _ Hrow Htr Hmul) as (_ & _ & Hp).
  pose proof Hsh as (Hv1 & Hv2 & Hv3 & Hm1 & Hm2 & Hm3 & Hinc).
  destruct (deref_lt (elems (outvar st)) c) as (v0 & Hv0 & _); [lia|].
  assert (∃ st1, row_step emat fitter (get_ncol emat) ncoefs c st = Ok st1
                 ∧ trans st1 = trans st) as (st1 & Hstep & Htrans).
  { unfold row_step, column_begin. rewrite Hrow. simpl.
    rewrite (row_fills_buffer _ _ _ _ _ Hrow Hsh). simpl. rewrite Htr. simpl.
    rewrite Hv1, Hm1, Nat.mul_1_r. rewrite assign_lt by lia. simpl.
    rewrite Hmul. simpl. rewrite Hv0. simpl.
    rewrite residual_sum_Ok by lia. simpl. rewrite assign_lt by lia. simpl.
    by eexists. }
  rewrite Hstep. simpl.
  destruct (row_step_inv _ _ _ _ _ _ _ _ Hstep Hsh)
    as (_ & _ & _ & _ & _ & _ & _ & _ & _ & _ & _ & _ & _ & Hsh1).
  apply IH; [done | lia | done |].
  intros i Hi. rewrite Htrans. apply Hrows. lia.
Qed.

Lemma compute_residual_stats_returns qr qraux inmat (tr : T) emat fitter :
  (∀ (t : T) buf t' buf', transform t buf = Ok (t', buf') → t' = t) →
  create_matrix inmat = Ok emat →
  linear_model_fit qr qraux = Ok fitter →
  get_ncoefs fitter ≤ get_ncol emat →
  (∀ i, i < get_nrow emat →
     ∃ row buf p, get_row emat i = Ok row
       ∧ transform tr row = Ok (tr, buf)
       ∧ multiply fitter buf = Ok p) →
  ∃ means vars, compute_residual_stats qr qraux inmat tr = Ok (means, vars).
Proof.
  intros Hpure Hm Hf Hdf Hrows. unfold compute_residual_stats, run_sweep.
  rewrite Hm, Hf. simpl.
  destruct (sweep_returns emat fitter (get_ncoefs fitter) (get_nrow emat)
              (get_nrow emat) 0 (sweep_init tr (get_nrow emat) (get_ncol emat)))
    as (st' & ->); [done | apply sweep_init_shape | lia | done | |].
  - intros i Hi. apply Hrows. lia.
  - simpl. by eexists _, _.
Qed.

(** With more coefficients than cells the residual iterator starts past the
    end of the buffer: the first row already takes the call out of bounds. *)
Lemma coefficients_beyond_cells_Undefined qr qraux inmat (tr tr' : T) emat fitter
    row buf p :
  create_matrix inmat = Ok emat →
  linear_model_fit qr qraux = Ok fitter →
  0 < get_nrow emat → get_row emat 0 = Ok row →
  transform tr row = Ok (tr', buf) → multiply fitter buf = Ok p →
  get_ncol emat < get_ncoefs fitter →
  compute_residual_stats qr qraux inmat tr = Undefined.
Proof.
  intros Hm Hf Hn Hrow Htr Hmul Hdf.
  destruct (row_lengths _ _ _ _ _ _ _ _ Hrow Htr Hmul) as (Hr & _ & Hp).
  unfold compute_residual_stats, run_sweep. rewrite Hm, Hf. simpl.
  destruct (get_nrow emat) as [|n]; [lia|]. simpl.
  unfold row_step, column_begin. rewrite Hrow. simpl.
  rewrite write_from_begin_full by (by rewrite length_replicate).
  simpl. rewrite Htr. simpl.
  rewrite Hmul. simpl. unfold residual_sum. rewrite decide_False by lia. done.
Qed.
(** C3, as the code has it.  With as many coefficients as cells the driver
    takes no other path: an error can only come from reading, transforming
    or projecting a row; when every row is read, transformed (by a
    transformer that keeps its state) and projected, the call returns; and
    a call that returns has divided, for every row, the empty residual sum
    [0] by the double [0] that [ncells - ncoefs] converts to: the quotient
    is NaN. *)
Theorem saturated_model_divides_zero_by_zero qr qraux inmat (tr : T) emat fitter :
  create_matrix inmat = Ok emat →
  linear_model_fit qr qraux = Ok fitter →
  get_ncoefs fitter = get_ncol emat →
  (∀ what, compute_residual_stats qr qraux inmat tr = Fatal what →
     (∃ c, get_row emat c = Fatal what)
     ∨ (∃ t row, transform (T:=T) t row = Fatal what)
     ∨ (∃ buf, multiply fitter buf = Fatal what))
  ∧ ((∀ (t : T) buf t' buf', transform t buf = Ok (t', buf') → t' = t) →
     (∀ i, i < get_nrow emat →
        ∃ row buf p, get_row emat i = Ok row
          ∧ transform tr row = Ok (tr, buf)
          ∧ multiply fitter buf = Ok p) →
     ∃ means vars, compute_residual_stats qr qraux inmat tr = Ok (means, vars))
  ∧ (∀ means vars i,
       compute_residual_stats qr qraux inmat tr = Ok (means, vars) →
       i < get_nrow emat →
       Z_to_double (size_sub (get_ncol emat) (get_ncoefs fitter)) = 0%float
       ∧ elems vars !! i = Some (0 / 0)%float
       ∧ (0 / 0)%float = nan).
Proof.
  intros Hm Hf Hsat. split_and!.
  - intros what H. unfold compute_residual_stats, run_sweep in H.
    rewrite Hm, Hf in H. simpl in H.
    destruct (sweep _ _ _ _ _ _ _) as [st| |] eqn:E; simpl in H; [done| |done].
    injection H as ->. apply sweep_Fatal in E as (c & st & E).
    apply row_step_Fatal in E as [E|[[row E]|[buf E]]]; eauto 10.
  - intros Hpure Hrows.
    apply (compute_residual_stats_returns _ _ _ _ emat fitter); try done. lia.
  - intros means vars i Hcall Hi.
    destruct (compute_residual_stats_inv _ _ _ _ _ _ _ _ Hm Hf Hcall)
      as (st' & _ & Hsweep & -> & ->).
    destruct (sweep_entry _ _ _ _ _ _ _ _ i Hsweep (sweep_init_shape _ _ _) Hi)
      as (st_i & st_i1 & row & buf & p & v0 & Hpre & _ & Hrow & Htr & Hmul & _ & _
          & Hv0 & _ & _ & _ & _ & _ & Hvar).
    destruct (row_lengths _ _ _ _ _ _ _ _ Hrow Htr Hmul) as (_ & _ & Hp).
    simpl in Hv0. apply lookup_replicate in Hv0 as [-> _].
    rewrite Hvar, Hsat, size_sub_diag, drop_ge by lia. done.
Qed.
End DriverFacts.

(** ** The two encodings and the entry points *)

Section TwoEncodings.
Context {M1 : Type} {HM1 : Matrix M1} {M2 : Type} {HM2 : Matrix M2}.
Context {F : Type} {HF : LinearModelFit F}.
Context {T : Type} {HT : Transformer T}.

Lemma row_step_ext (e1 : M1) (e2 : M2) (fitter : F) ncells ncoefs c (st : sweep_state T) :
  get_row e1 c = get_row e2 c →
  row_step e1 fitter ncells ncoefs c st = row_step e2 fitter ncells ncoefs c st.
Proof. intros H. unfold row_step. by rewrite H. Qed.

Lemma sweep_ext (e1 : M1) (e2 : M2) (fitter : F) ncells ncoefs n c (st : sweep_state T) :
  (∀ i, c ≤ i < c + n → get_row e1 i = get_row e2 i) →
  sweep e1 fitter ncells ncoefs n c st = sweep e2 fitter ncells ncoefs n c st.
Proof.
  revert c st. induction n as [|n IH]; intros c st H; simpl; [done|].
  rewrite (row_step_ext e1 e2) by (apply H; lia).
  destruct (row_step e2 fitter ncells ncoefs c st) as [st1| |]; simpl; [|done..].
  apply IH. intros i Hi. apply H. lia.
Qed.

Lemma compute_residual_stats_ext qr qraux inmat1 inmat2 (tr : T) (e1 : M1) (e2 : M2) :
  create_matrix inmat1 = Ok e1 → create_matrix inmat2 = Ok e2 →
  get_nrow e1 = get_nrow e2 → get_ncol e1 = get_ncol e2 →
  (∀ i, i < get_nrow e1 → get_row e1 i = get_row e2 i) →
  compute_residual_stats (M:=M1) (F:=F) qr qraux inmat1 tr
  = compute_residual_stats (M:=M2) (F:=F) qr qraux inmat2 tr.
Proof.
  intros H1 H2 Hr Hc Hrow. unfold compute_residual_stats, run_sweep.
  rewrite H1, H2. simpl. rewrite Hr, Hc.
  destruct (linear_model_fit qr qraux) as [fitter| |]; simpl; [|done..].
  rewrite (sweep_ext e1 e2); [done|]. intros i Hi. apply Hrow. lia.
Qed.
End TwoEncodings.

Lemma same_values_get_row im rm r :
  same_values im rm →
  get_row (M:=integer_matrix) im r = get_row (M:=numeric_matrix) rm r.
Proof.
  intros (Hr & Hc & Hrows). simpl. unfold dense_get_row.
  rewrite Hr, Hc, Hrows, list_lookup_fmap.
  destruct (d_rows im !! r) as [row|]; simpl; [|done].
  rewrite length_fmap. by rewrite list_fmap_id.
Qed.

Section EntryClaims.
Variable log : double → double.
Context {F : Type} {HF : LinearModelFit F}.

(** C5. On two matrices of the same values, one of integer storage and one
    of double storage, [compute_residual_stats_none] gives equal results (equal
    outcomes, failures included), and so does
    [compute_residual_stats_lognorm] under the same size factors and
    pseudocount.  The encoding is chosen once, from the storage type of the
    argument: each entry point is the driver at that one matrix class. *)
Theorem encodings_agree qr qraux (im : dense Z) (rm : dense double)
    (sf : NumericVector) (pseudo : double) :
  same_values im rm →
  compute_residual_stats_none (F:=F) qr qraux (IntegerMatrix im)
  = compute_residual_stats_none (F:=F) qr qraux (RealMatrix rm)
  ∧ compute_residual_stats_lognorm log (F:=F) qr qraux (IntegerMatrix im) sf pseudo
    = compute_residual_stats_lognorm log (F:=F) qr qraux (RealMatrix rm) sf pseudo
  ∧ compute_residual_stats_none (F:=F) qr qraux (IntegerMatrix im)
    = compute_residual_stats (M:=integer_matrix) qr qraux (IntegerMatrix im) none_ctor
  ∧ compute_residual_stats_none (F:=F) qr qraux (RealMatrix rm)
    = compute_residual_stats (M:=numeric_matrix) qr qraux (RealMatrix rm) none_ctor
  ∧ compute_residual_stats_lognorm log (F:=F) qr qraux (IntegerMatrix im) sf pseudo
    = compute_residual_stats (M:=integer_matrix)
        (HT:=lognorm_transformer log) qr qraux (IntegerMatrix im)
        (lognorm_ctor sf pseudo)
  ∧ compute_residual_stats_lognorm log (F:=F) qr qraux (RealMatrix rm) sf pseudo
    = compute_residual_stats (M:=numeric_matrix)
        (HT:=lognorm_transformer log) qr qraux (RealMatrix rm)
        (lognorm_ctor sf pseudo).
Proof.
  intros Hsame. pose proof Hsame as (Hr & Hc & _).
  split_and!; try done.
  - unfold compute_residual_stats_none. simpl.
    apply (compute_residual_stats_ext _ _ _ _ _ im rm); try done.
    intros i _. by apply same_values_get_row.
  - unfold compute_residual_stats_lognorm. simpl.
    apply (compute_residual_stats_ext _ _ _ _ _ im rm); try done.
    intros i _. by apply same_values_get_row.
Qed.

Lemma call_lognorm_result qr qraux inmat pseudo sf :
  call_lognorm log (F:=F) qr qraux inmat pseudo sf
  = r ← compute_residual_stats_lognorm log (F:=F) qr qraux inmat sf pseudo; Ok (r, sf).
Proof.
  unfold call_lognorm, compute_residual_stats_lognorm, compute_residual_stats.
  case_decide.
  - destruct (run_sweep _ _ _ _) as [st| |] eqn:E; simpl; [|done..].
    apply run_sweep_trans in E as ->; [done|]. apply lognorm_op_stateless.
  - destruct (run_sweep _ _ _ _) as [st| |] eqn:E; simpl; [|done..].
    apply run_sweep_trans in E as ->; [done|]. apply lognorm_op_stateless.
Qed.

(** C6. An entry point is a function of its arguments, and a call leaves
    nothing behind: the size-factor vector is after the call as before it,
    so the second of two calls one after the other returns what the first
    returned, whatever the outcome. *)
Theorem calls_carry_no_state qr qraux inmat (sf : NumericVector) (pseudo : double) :
  call_lognorm log (F:=F) qr qraux inmat pseudo sf
  = (r ← compute_residual_stats_lognorm log (F:=F) qr qraux inmat sf pseudo; Ok (r, sf))
  ∧ two_calls (call_lognorm log (F:=F) qr qraux inmat pseudo) sf
    = (r ← compute_residual_stats_lognorm log (F:=F) qr qraux inmat sf pseudo; Ok (r, r))
  ∧ two_calls (call_none (F:=F) qr qraux inmat) ()
    = (r ← compute_residual_stats_none (F:=F) qr qraux inmat; Ok (r, r)).
Proof.
  split_and!.
  - apply call_lognorm_result.
  - unfold two_calls. rewrite call_lognorm_result.
    destruct (compute_residual_stats_lognorm _ _ _ _ _ _) as [r| |] eqn:E;
      simpl; [|done..].
    rewrite call_lognorm_result, E. done.
  - unfold two_calls, call_none.
    destruct (compute_residual_stats_none _ _ _) as [r| |]; simpl; done.
Qed.

(** C10. [compute_residual_stats_lognorm] checks neither the length nor the
    values of [sf] nor [pseudo]: on a row of [ncells] values the transform
    stays inside [sf] exactly when [sf] holds at least [ncells] values,
    whatever the values are; with fewer, the read of a size factor leaves
    the vector, in the transform and so in the call; with at least
    [ncells], no buffer of [ncells] values takes a read out of range. *)
Theorem size_factors_read_unchecked qr qraux inmat (sf : NumericVector)
    (pseudo : double) (fitter : F) (row : NumericVector) :
  linear_model_fit qr qraux = Ok fitter →
  0 < inmat_nrow inmat →
  inmat_row inmat 0 = Ok row →
  (inmat_ncol inmat ≤ length sf
   ↔ ∃ buf', lognorm_op log (lognorm_ctor sf pseudo) row
             = Ok (lognorm_ctor sf pseudo, buf'))
  ∧ (length sf < inmat_ncol inmat
     ↔ lognorm_op log (lognorm_ctor sf pseudo) row = Undefined)
  ∧ (length sf < inmat_ncol inmat →
     compute_residual_stats_lognorm log (F:=F) qr qraux inmat sf pseudo = Undefined)
  ∧ (∀ buf, length buf = inmat_ncol inmat → inmat_ncol inmat ≤ length sf →
       ∃ buf', lognorm_op log (lognorm_ctor sf pseudo) buf
               = Ok (lognorm_ctor sf pseudo, buf')).
Proof.
  intros Hf Hn Hrow.
  assert (length row = inmat_ncol inmat) as Hlen.
  { destruct inmat as [m|m].
    - exact (get_row_length (M:=integer_matrix) m 0 row Hrow).
    - exact (get_row_length (M:=numeric_matrix) m 0 row Hrow). }
  assert (∀ buf, length buf ≤ length sf →
            ∃ buf', lognorm_op log (lognorm_ctor sf pseudo) buf
                    = Ok (lognorm_ctor sf pseudo, buf')) as Hok.
  { intros buf Hb. destruct (lognorm_op_Ok log (lognorm_ctor sf pseudo) buf)
      as (buf' & ? & _); [done|]. by exists buf'. }
  assert (length sf < length row →
          lognorm_op log (lognorm_ctor sf pseudo) row = Undefined) as Hshort.
  { intros Hs. by apply lognorm_op_short. }
  split_and!.
  - split.
    + intros Hle. apply Hok. lia.
    + intros [buf' Hop]. destruct (decide (inmat_ncol inmat ≤ length sf)); [done|].
      rewrite Hshort in Hop by lia. done.
  - split.
    + intros Hlt. apply Hshort. lia.
    + intros Hu. destruct (decide (length sf < inmat_ncol inmat)); [done|].
      destruct (Hok row) as [buf' Hop]; [lia|]. congruence.
  - intros Hlt. unfold compute_residual_stats_lognorm.
    destruct inmat as [m|m]; simpl in *.
    + apply (first_row_Undefined _ _ _ _ m fitter row); try done.
      apply Hshort. lia.
    + apply (first_row_Undefined _ _ _ _ m fitter row); try done.
      apply Hshort. lia.
  - intros buf Hb Hle. apply Hok. lia.
Qed.
End EntryClaims.

(** * Further properties of the driver and the transforms *)

Section RowFacts.
Context {M : Type} {HM : Matrix M}.
Context {F : Type} {HF : LinearModelFit F}.
Context {T : Type} {HT : Transformer T}.

(** Under a transformer that keeps its state, entry [i] of the outputs is
    computed from row [i] with the transformer the call was given. *)
Lemma entry_of_row qr qraux inmat (tr : T) (emat : M) (fitter : F) means vars i :
  (∀ (t : T) buf t' buf', transform t buf = Ok (t', buf') → t' = t) →
  create_matrix inmat = Ok emat →
  linear_model_fit qr qraux = Ok fitter →
  compute_residual_stats qr qraux inmat tr = Ok (means, vars) →
  i < get_nrow emat →
  ∃ row buf p,
    get_row emat i = Ok row
    ∧ transform tr row = Ok (tr, buf)
    ∧ multiply fitter buf = Ok p
    ∧ elems means !! i = Some (accumulate buf 0 / size_to_double (get_ncol emat))%float
    ∧ elems vars !! i
      = Some (sum_of_squares (drop (get_ncoefs fitter) p)
              / Z_to_double (size_sub (get_ncol emat) (get_ncoefs fitter)))%float.
Proof.
  intros Hpure Hm Hf Hcall Hi.
  destruct (compute_residual_stats_inv _ _ _ _ _ _ _ _ Hm Hf Hcall)
    as (st' & _ & Hsweep & -> & ->).
  destruct (sweep_entry _ _ _ _ _ _ _ _ i Hsweep (sweep_init_shape _ _ _) Hi)
    as (st_i & st_i1 & row & buf & p & v0 & Hpre & _ & Hrow & Htr & Hmul & _ & _
        & Hv0 & _ & _ & _ & _ & Hmean & Hvar).
  apply (sweep_trans _ _ _ _ _ _ _ _ Hpure) in Hpre. simpl in Hpre.
  pose proof (Hpure _ _ _ _ Htr) as Heq. rewrite Heq, Hpre in Htr.
  simpl in Hv0. apply lookup_replicate in Hv0 as [-> _].
  exists row, buf, p. by split_and!.
Qed.

(** The shape of what a call returns. *)
Lemma outputs_shape qr qraux inmat (tr : T) (emat : M) means vars :
  create_matrix inmat = Ok emat →
  compute_residual_stats qr qraux inmat tr = Ok (means, vars) →
  loop_shape (get_nrow emat) (get_ncol emat)
    {| trans := tr; outvar := vars; outmean := means; incoming := replicate (get_ncol emat) 0%float |}.
Proof.
  intros Hm Hcall.
  destruct (linear_model_fit (F:=F) qr qraux) as [fitter| |] eqn:Hf;
    [|unfold compute_residual_stats, run_sweep in Hcall;
      rewrite Hm, Hf in Hcall; done..].
  destruct (compute_residual_stats_inv _ _ _ _ _ _ _ _ Hm Hf Hcall)
    as (st' & _ & Hsweep & -> & ->).
  destruct (sweep_frame _ _ _ _ _ _ _ _ _ Hsweep (sweep_init_shape _ _ _))
    as ((Hv1 & Hv2 & Hv3 & Hm1 & Hm2 & Hm3 & _) & _ & _).
  unfold loop_shape. simpl. rewrite length_replicate. by split_and!.
Qed.

(** X3. The first failure among the rows is the failure of the call: when
    rows [0 .. k-1] go through and reading, transforming or projecting row
    [k] raises an error, the call raises that error; what the rows before
    gave is not returned. *)
Theorem first_failing_row_fails_call qr qraux inmat (tr : T) (emat : M)
    (fitter : F) (k : nat) (st : sweep_state T) (what : string) :
  create_matrix inmat = Ok emat →
  linear_model_fit qr qraux = Ok fitter →
  k < get_nrow emat →
  sweep emat fitter (get_ncol emat) (get_ncoefs fitter) k 0
    (sweep_init tr (get_nrow emat) (get_ncol emat)) = Ok st →
  get_row emat k = Fatal what
  ∨ (∃ row, get_row emat k = Ok row ∧ transform (trans st) row = Fatal what)
  ∨ (∃ row tr' buf, get_row emat k = Ok row
       ∧ transform (trans st) row = Ok (tr', buf)
       ∧ multiply fitter buf = Fatal what) →
  compute_residual_stats qr qraux inmat tr = Fatal what.
Proof.
  intros Hm Hf Hk Hpre Hfail. unfold compute_residual_stats, run_sweep.
  rewrite Hm, Hf. simpl.
  replace (get_nrow emat) with (k + S (get_nrow emat - S k)) at 1 by lia.
  rewrite sweep_app, Hpre. simpl.
  destruct (sweep_frame _ _ _ _ _ _ _ _ _ Hpre (sweep_init_shape _ _ _))
    as (Hsh & _ & _).
  pose proof Hsh as (_ & _ & _ & Hm1 & _ & Hm3 & _).
  unfold row_step.
  destruct Hfail as [Hrow|[(row & Hrow & Htr)|(row & tr' & buf & Hrow & Htr & Hmul)]].
  - by rewrite Hrow.
  - rewrite Hrow. simpl. rewrite (row_fills_buffer _ _ _ _ _ Hrow Hsh). simpl.
    by rewrite Htr.
  - rewrite Hrow. simpl. rewrite (row_fills_buffer _ _ _ _ _ Hrow Hsh). simpl.
    rewrite Htr. simpl. unfold column_begin. rewrite Hm1, Nat.mul_1_r.
    rewrite assign_lt by lia. simpl. by rewrite Hmul.
Qed.

(** X4. With more coefficients than cells and at least one row, a call
    whose first row is read and transformed never returns a result: it ends
    as the projector's failure on that row or, when the projector succeeds,
    out of bounds, the residual iterator having been moved past the end of
    the buffer. *)
Theorem more_coefficients_than_cells_never_returns qr qraux inmat (tr tr' : T)
    (emat : M) (fitter : F) (row buf : NumericVector) :
  create_matrix inmat = Ok emat →
  linear_model_fit qr qraux = Ok fitter →
  0 < get_nrow emat →
  get_row emat 0 = Ok row →
  transform tr row = Ok (tr', buf) →
  get_ncol emat < get_ncoefs fitter →
  compute_residual_stats qr qraux inmat tr
  = (p ← multiply fitter buf; Undefined).
Proof.
  intros Hm Hf Hn Hrow Htr Hdf.
  pose proof (get_row_length _ _ _ Hrow) as Hr.
  pose proof (transform_length _ _ _ _ Htr) as Hb.
  unfold compute_residual_stats, run_sweep. rewrite Hm, Hf. simpl.
  destruct (get_nrow emat) as [|n]; [lia|]. simpl.
  unfold row_step, column_begin. rewrite Hrow. simpl.
  rewrite write_from_begin_full by (by rewrite length_replicate).
  simpl. rewrite Htr. simpl.
  destruct (multiply fitter buf) as [p| |] eqn:Hmul; simpl; [|done..].
  apply multiply_length in Hmul.
  unfold residual_sum. rewrite decide_False by lia. done.
Qed.
End RowFacts.

Lemma none_op_stateless (N : none) buf N' buf' :
  transform N buf = Ok (N', buf') → N' = N.
Proof. by intros [= <- _]. Qed.

Section TwoCalls.
Context {M1 : Type} {HM1 : Matrix M1} {M2 : Type} {HM2 : Matrix M2}.
Context {F1 : Type} {HF1 : LinearModelFit F1} {F2 : Type} {HF2 : LinearModelFit F2}.
Context {T : Type} {HT : Transformer T}.

(** Two calls under one factorization: entries computed from equal rows
    are equal. *)
Lemma equal_rows_equal_entries qr qraux inmat1 inmat2 (tr : T) (e1 : M1) (e2 : M2)
    means1 vars1 means2 vars2 i j :
  (∀ (t : T) buf t' buf', transform t buf = Ok (t', buf') → t' = t) →
  create_matrix inmat1 = Ok e1 → create_matrix inmat2 = Ok e2 →
  compute_residual_stats (M:=M1) (F:=F1) qr qraux inmat1 tr = Ok (means1, vars1) →
  compute_residual_stats (M:=M2) (F:=F1) qr qraux inmat2 tr = Ok (means2, vars2) →
  get_ncol e1 = get_ncol e2 →
  i < get_nrow e1 → j < get_nrow e2 →
  get_row e1 i = get_row e2 j →
  elems means1 !! i = elems means2 !! j ∧ elems vars1 !! i = elems vars2 !! j.
Proof.
  intros Hpure Hm1 Hm2 Hc1 Hc2 Hcol Hi Hj Hrows.
  destruct (linear_model_fit (F:=F1) qr qraux) as [fitter| |] eqn:Hf;
    [|unfold compute_residual_stats, run_sweep in Hc1;
      rewrite Hm1, Hf in Hc1; done..].
  destruct (entry_of_row _ _ _ _ _ _ _ _ i Hpure Hm1 Hf Hc1 Hi)
    as (row1 & buf1 & p1 & Hr1 & Ht1 & Hp1 & -> & ->).
  destruct (entry_of_row _ _ _ _ _ _ _ _ j Hpure Hm2 Hf Hc2 Hj)
    as (row2 & buf2 & p2 & Hr2 & Ht2 & Hp2 & -> & ->).
  rewrite Hrows, Hr2 in Hr1. injection Hr1 as <-.
  rewrite Ht2 in Ht1. injection Ht1 as <-.
  rewrite Hp2 in Hp1. injection Hp1 as <-.
  by rewrite Hcol.
Qed.

(** Two calls on one matrix under two factorizations: the means agree. *)
Lemma means_do_not_see_factorization qr1 qraux1 qr2 qraux2 inmat (tr : T) (e : M1)
    means1 vars1 means2 vars2 :
  (∀ (t : T) buf t' buf', transform t buf = Ok (t', buf') → t' = t) →
  create_matrix inmat = Ok e →
  compute_residual_stats (M:=M1) (F:=F1) qr1 qraux1 inmat tr = Ok (means1, vars1) →
  compute_residual_stats (M:=M1) (F:=F2) qr2 qraux2 inmat tr = Ok (means2, vars2) →
  means1 = means2.
Proof.
  intros Hpure Hm Hc1 Hc2.
  destruct (outputs_shape _ _ _ _ _ _ _ Hm Hc1) as (_ & _ & _ & Hn1 & Hk1 & Hl1 & _).
  destruct (outputs_shape _ _ _ _ _ _ _ Hm Hc2) as (_ & _ & _ & Hn2 & Hk2 & Hl2 & _).
  simpl in *.
  assert (elems means1 = elems means2) as Hel.
  { apply list_eq. intros i. destruct (decide (i < get_nrow e)) as [Hi|Hi].
    - destruct (linear_model_fit (F:=F1) qr1 qraux1) as [f1| |] eqn:Hf1;
        [|unfold compute_residual_stats, run_sweep in Hc1;
          rewrite Hm, Hf1 in Hc1; done..].
      destruct (linear_model_fit (F:=F2) qr2 qraux2) as [f2| |] eqn:Hf2;
        [|unfold compute_residual_stats, run_sweep in Hc2;
          rewrite Hm, Hf2 in Hc2; done..].
      destruct (entry_of_row _ _ _ _ _ _ _ _ i Hpure Hm Hf1 Hc1 Hi)
        as (row1 & buf1 & p1 & Hr1 & Ht1 & _ & -> & _).
      destruct (entry_of_row _ _ _ _ _ _ _ _ i Hpure Hm Hf2 Hc2 Hi)
        as (row2 & buf2 & p2 & Hr2 & Ht2 & _ & -> & _).
      rewrite Hr2 in Hr1. injection Hr1 as <-.
      rewrite Ht2 in Ht1. by injection Ht1 as <-.
    - rewrite !lookup_ge_None_2; [done | lia..]. }
  destruct means1, means2; simpl in *. congruence.
Qed.
End TwoCalls.

Section EntryExtras.
Variable log : double → double.
Context {F : Type} {HF : LinearModelFit F}.

(** X1. The statistics of a row depend on the values of that row alone:
    in two calls of an entry point under the same factorization (and size
    factors and pseudocount), on matrices of the same column count and of
    either storage type, a row of the one that holds the values of a row
    of the other gets the same mean and the same variance, wherever the two
    rows stand and whatever the other rows hold. *)
Theorem row_statistics_depend_on_row_alone qr qraux (inmat1 inmat2 : RObject)
    (i j : nat) :
  inmat_ncol inmat1 = inmat_ncol inmat2 →
  i < inmat_nrow inmat1 → j < inmat_nrow inmat2 →
  inmat_row inmat1 i = inmat_row inmat2 j →
  (∀ means1 vars1 means2 vars2,
     compute_residual_stats_none (F:=F) qr qraux inmat1 = Ok (means1, vars1) →
     compute_residual_stats_none (F:=F) qr qraux inmat2 = Ok (means2, vars2) →
     elems means1 !! i = elems means2 !! j ∧ elems vars1 !! i = elems vars2 !! j)
  ∧ (∀ sf pseudo means1 vars1 means2 vars2,
       compute_residual_stats_lognorm log (F:=F) qr qraux inmat1 sf pseudo
       = Ok (means1, vars1) →
       compute_residual_stats_lognorm log (F:=F) qr qraux inmat2 sf pseudo
       = Ok (means2, vars2) →
       elems means1 !! i = elems means2 !! j ∧ elems vars1 !! i = elems vars2 !! j).
Proof.
  intros Hcol Hi Hj Hrows. split.
  - intros means1 vars1 means2 vars2 H1 H2.
    unfold compute_residual_stats_none in H1, H2.
    destruct inmat1 as [m1|m1], inmat2 as [m2|m2]; simpl in *;
      eapply (equal_rows_equal_entries (F1:=F) qr qraux _ _ none_ctor m1 m2);
      try exact H1; try exact H2; try done; apply none_op_stateless.
  - intros sf pseudo means1 vars1 means2 vars2 H1 H2.
    unfold compute_residual_stats_lognorm in H1, H2.
    destruct inmat1 as [m1|m1], inmat2 as [m2|m2]; simpl in *;
      eapply (equal_rows_equal_entries (F1:=F) (HT:=lognorm_transformer log)
                qr qraux _ _ (lognorm_ctor sf pseudo) m1 m2);
      try exact H1; try exact H2; try done; apply lognorm_op_stateless.
Qed.
(** X2. The means do not depend on the factorization: two calls of an
    entry point on the same matrix (and size factors and pseudocount) that
    both return give the same matrix of means, whatever [qr] and [qraux]
    are. *)
Theorem means_ignore_the_factorization qr1 qraux1 qr2 qraux2 (inmat : RObject) :
  (∀ means1 vars1 means2 vars2,
     compute_residual_stats_none (F:=F) qr1 qraux1 inmat = Ok (means1, vars1) →
     compute_residual_stats_none (F:=F) qr2 qraux2 inmat = Ok (means2, vars2) →
     means1 = means2)
  ∧ (∀ sf pseudo means1 vars1 means2 vars2,
       compute_residual_stats_lognorm log (F:=F) qr1 qraux1 inmat sf pseudo
       = Ok (means1, vars1) →
       compute_residual_stats_lognorm log (F:=F) qr2 qraux2 inmat sf pseudo
       = Ok (means2, vars2) →
       means1 = means2).
Proof.
  split.
  - intros means1 vars1 means2 vars2 H1 H2.
    unfold compute_residual_stats_none in H1, H2.
    destruct inmat as [m|m]; simpl in *;
      eapply (means_do_not_see_factorization (F1:=F) (F2:=F)
                qr1 qraux1 qr2 qraux2 _ none_ctor m);
      try exact H1; try exact H2; try done; apply none_op_stateless.
  - intros sf pseudo means1 vars1 means2 vars2 H1 H2.
    unfold compute_residual_stats_lognorm in H1, H2.
    destruct inmat as [m|m]; simpl in *;
      eapply (means_do_not_see_factorization (F1:=F) (F2:=F)
                (HT:=lognorm_transformer log)
                qr1 qraux1 qr2 qraux2 _ (lognorm_ctor sf pseudo) m);
      try exact H1; try exact H2; try done; apply lognorm_op_stateless.
Qed.

(** X5. The log-normalize transform reads one size factor per cell of the
    buffer and none after them: under two size-factor vectors that agree
    on as many leading entries as the buffer has cells, it leaves the same
    values in the buffer. *)
Theorem lognorm_reads_leading_size_factors (sf1 sf2 : NumericVector) (pseudo : double)
    (buf : NumericVector) :
  length buf ≤ length sf1 → length buf ≤ length sf2 →
  take (length buf) sf1 = take (length buf) sf2 →
  ∃ buf',
    lognorm_op log (lognorm_ctor sf1 pseudo) buf = Ok (lognorm_ctor sf1 pseudo, buf')
    ∧ lognorm_op log (lognorm_ctor sf2 pseudo) buf = Ok (lognorm_ctor sf2 pseudo, buf').
Proof.
  intros H1 H2 Htake.
  destruct (lognorm_op_Ok log (lognorm_ctor sf1 pseudo) buf H1) as (b1 & Hop1 & Hl1 & Hc1).
  destruct (lognorm_op_Ok log (lognorm_ctor sf2 pseudo) buf H2) as (b2 & Hop2 & Hl2 & Hc2).
  exists b1. split; [done|]. rewrite Hop2. do 2 f_equal.
  apply list_eq. intros j. destruct (decide (j < length buf)) as [Hj|Hj].
  - destruct (lookup_lt_is_Some_2 buf j Hj) as [x Hx].
    destruct (lookup_lt_is_Some_2 sf1 j) as [s Hs]; [simpl in *; lia|].
    assert (sf2 !! j = Some s) as Hs2.
    { rewrite <- (lookup_take_lt sf2 (length buf) j Hj), <- Htake.
      by rewrite lookup_take_lt. }
    by rewrite (Hc1 j x s Hx Hs), (Hc2 j x s Hx Hs2).
  - rewrite !lookup_ge_None_2; [done | lia..].
Qed.

(** X6. The entry points return a result whenever the factorization is
    accepted, has no more coefficients than the matrix has cells, every row
    can be read and the projector accepts buffers of [ncells] values; for
    the log-normalize entry point, whenever in addition [sf] holds at least
    [ncells] values, whatever the values and [pseudo] are. *)
Theorem calls_return_on_readable_rows qr qraux (inmat : RObject) (fitter : F) :
  linear_model_fit qr qraux = Ok fitter →
  get_ncoefs fitter ≤ inmat_ncol inmat →
  (∀ i, i < inmat_nrow inmat → ∃ row, inmat_row inmat i = Ok row) →
  (∀ buf, length buf = inmat_ncol inmat → ∃ p, multiply fitter buf = Ok p) →
  (∃ means vars, compute_residual_stats_none (F:=F) qr qraux inmat = Ok (means, vars))
  ∧ (∀ sf pseudo, inmat_ncol inmat ≤ length sf →
       ∃ means vars,
         compute_residual_stats_lognorm log (F:=F) qr qraux inmat sf pseudo
         = Ok (means, vars)).
Proof.
  intros Hf Hdf Hrows Hmul. split.
  - unfold compute_residual_stats_none.
    destruct inmat as [m|m]; simpl in *.
    + apply (compute_residual_stats_returns (M:=integer_matrix) _ _ _ _ m fitter);
        [apply none_op_stateless | done | done | done |].
      intros i Hi. destruct (Hrows i Hi) as [row Hrow].
      destruct (Hmul row) as [p Hp];
        [exact (get_row_length (M:=integer_matrix) m i row Hrow)|].
      by exists row, row, p.
    + apply (compute_residual_stats_returns (M:=numeric_matrix) _ _ _ _ m fitter);
        [apply none_op_stateless | done | done | done |].
      intros i Hi. destruct (Hrows i Hi) as [row Hrow].
      destruct (Hmul row) as [p Hp];
        [exact (get_row_length (M:=numeric_matrix) m i row Hrow)|].
      by exists row, row, p.
  - intros sf pseudo Hsf. unfold compute_residual_stats_lognorm.
    destruct inmat as [m|m]; simpl in *.
    + apply (compute_residual_stats_returns (M:=integer_matrix)
               (HT:=lognorm_transformer log) _ _ _ _ m fitter);
        [apply lognorm_op_stateless | done | done | done |].
      intros i Hi. destruct (Hrows i Hi) as [row Hrow].
      pose proof (get_row_length (M:=integer_matrix) m i row Hrow) as Hlen.
      destruct (lognorm_op_Ok log (lognorm_ctor sf pseudo) row) as (buf & Hop & Hb & _);
        [simpl in *; lia|].
      destruct (Hmul buf) as [p Hp]; [simpl in *; lia|].
      by exists row, buf, p.
    + apply (compute_residual_stats_returns (M:=numeric_matrix)
               (HT:=lognorm_transformer log) _ _ _ _ m fitter);
        [apply lognorm_op_stateless | done | done | done |].
      intros i Hi. destruct (Hrows i Hi) as [row Hrow].
      pose proof (get_row_length (M:=numeric_matrix) m i row Hrow) as Hlen.
      destruct (lognorm_op_Ok log (lognorm_ctor sf pseudo) row) as (buf & Hop & Hb & _);
        [simpl in *; lia|].
      destruct (Hmul buf) as [p Hp]; [simpl in *; lia|].
      by exists row, buf, p.
Qed.
End EntryExtras.

(** * Sample runs *)

(** The end-to-end examples of the spec.  Under the identity, row
    [2, 4, 6, 8] with the intercept-only design has mean 5 and variance
    20/3. *)
Example identity_end_to_end :
  compute_residual_stats_none (F:=qr_fit) sample_qr sample_qraux
    (RealMatrix sample_matrix) = sample_none_stats
  ∧ elems (means_of sample_none_stats) !! 0 = Some 5%float
  ∧ elems (vars_of sample_none_stats) !! 0 = Some (20 / 3)%float.
Proof. split_and!; vm_compute; reflexivity. Qed.

(** Row [1, 3, 7, 15] with unit size factors and pseudocount 1 becomes
    [1, 2, 3, 4], of mean 5/2 and variance 5/3 (with [series_log] for the
    logarithm). *)
Example lognorm_end_to_end :
  compute_residual_stats_lognorm series_log (F:=qr_fit) sample_qr sample_qraux
    (IntegerMatrix sample_counts) sample_sf 1%float = sample_lognorm_stats
  ∧ lognorm_op series_log (lognorm_ctor sample_sf 1%float) [1; 3; 7; 15]%float
    = Ok (lognorm_ctor sample_sf 1%float, [1; 2; 3; 4]%float)
  ∧ elems (means_of sample_lognorm_stats) !! 1 = Some 2.5%float
  ∧ elems (vars_of sample_lognorm_stats) !! 1 = Some (5 / 3)%float.
Proof. split_and!; vm_compute; reflexivity. Qed.

Lemma lognorm_replaces_each_cell_witness :
  ∃ buf', lognorm_op series_log (lognorm_ctor sample_sf 1%float)
            [1; 3; 7; 15]%float
          = Ok (lognorm_ctor sample_sf 1%float, buf')
    ∧ buf' !! 2 = Some (series_log (7 / 1 + 1) / M_LN2)%float.
Proof.
  destruct (lognorm_replaces_each_cell series_log
              (lognorm_ctor sample_sf 1%float) [1; 3; 7; 15]%float)
    as (buf' & Hop & _ & Hcell & _).
  - simpl. lia.
  - exists buf'. split; [exact Hop|]. by apply Hcell.
Defined.

(** C4 fails on the code: a cell of value [2^29 - 1] under size factor 1
    and pseudocount 1 holds [2^29], whose base-2 logarithm is 29.  Whether
    [std::log] gives at [2^29] the double nearest to [ln (2^29)] or one of
    its two neighbours, the cell comes out next to 29 and not as 29. *)
Lemma log_over_ln2_misses_log2 :
  (536870911 / 1 + 1)%float = Z_to_double (2 ^ 29)
  ∧ exact_log2 (536870911 / 1 + 1)%float = Some 29%float
  ∧ (∀ log : double → double,
       log (Z_to_double (2 ^ 29)) = ln_2_pow_29
       ∨ log (Z_to_double (2 ^ 29)) = next_down ln_2_pow_29
       ∨ log (Z_to_double (2 ^ 29)) = next_up ln_2_pow_29 →
       ∃ y, lognorm_op log (lognorm_ctor [1%float] 1%float) [536870911%float]
            = Ok (lognorm_ctor [1%float] 1%float, [y])
         ∧ (y =? 29)%float = false)
  ∧ series_log (Z_to_double (2 ^ 29)) = ln_2_pow_29
  ∧ lognorm_op series_log (lognorm_ctor [1%float] 1%float) [536870911%float]
    = Ok (lognorm_ctor [1%float] 1%float, [next_up 29]).
Proof.
  split_and!; try (vm_compute; reflexivity).
  intros log Hlog.
  exists (log (Z_to_double (2 ^ 29)) / M_LN2)%float. split; [reflexivity|].
  destruct Hlog as [-> | [-> | ->]]; vm_compute; reflexivity.
Qed.

Lemma variance_is_residual_mean_square_witness :
  ∃ p, multiply sample_fit [2; 4; 6; 8]%float = Ok p
     ∧ elems (vars_of sample_none_stats) !! 0 = Some (spec_variance 4 1 p).
Proof.
  destruct (variance_is_residual_mean_square (M:=numeric_matrix) (F:=qr_fit)
              (T:=none) sample_qr sample_qraux (RealMatrix sample_matrix)
              none_ctor sample_matrix sample_fit
              (means_of sample_none_stats) (vars_of sample_none_stats) 0)
    as (st & row & tr' & buf & p & _ & Hrow & Htr & Hmul & _ & Hvar).
  - reflexivity.
  - reflexivity.
  - vm_compute. reflexivity.
  - simpl. lia.
  - simpl. lia.
  - simpl. lia.
  - exists p. split; [|exact Hvar].
    vm_compute in Hrow. injection Hrow as <-.
    injection Htr as _ <-. exact Hmul.
Defined.

Lemma mean_is_of_transformed_row_witness :
  elems (means_of sample_lognorm_stats) !! 1
  = Some (spec_mean 4 [1; 2; 3; 4]%float).
Proof.
  destruct (mean_is_of_transformed_row (M:=integer_matrix) (F:=qr_fit)
              (HT:=lognorm_transformer series_log)
              sample_qr sample_qraux (IntegerMatrix sample_counts)
              (lognorm_ctor sample_sf 1%float) sample_counts sample_fit
              (means_of sample_lognorm_stats) (vars_of sample_lognorm_stats) 1)
    as (st & row & tr' & buf & p & Hst & Hrow & Htr & _ & _ & Hmean).
  - reflexivity.
  - reflexivity.
  - vm_compute. reflexivity.
  - simpl. lia.
  - vm_compute in Hst. injection Hst as <-.
    vm_compute in Hrow. injection Hrow as <-.
    vm_compute in Htr. injection Htr as _ <-. exact Hmean.
Defined.

(** C3 fails on the code: with one cell and one coefficient the call
    raises no error; it returns, and each variance is the quotient of zero
    by the zero that [ncells - ncoefs] converts to. *)
Lemma saturated_call_returns_silently :
  is_fatal (compute_residual_stats_none (F:=qr_fit) saturated_qr [0%float]
              (RealMatrix saturated_matrix)) = false
  ∧ compute_residual_stats_none (F:=qr_fit) saturated_qr [0%float]
      (RealMatrix saturated_matrix)
    = Ok ({| nrow := 1; ncol := 2; elems := [2; 3]%float |},
          {| nrow := 1; ncol := 2;
             elems := [0 / Z_to_double (size_sub 1 1);
                       0 / Z_to_double (size_sub 1 1)]%float |})
  ∧ Z_to_double (size_sub 1 1) = 0%float
  ∧ (0 / Z_to_double (size_sub 1 1))%float = nan.
Proof. split_and!; vm_compute; reflexivity. Qed.

Lemma saturated_model_divides_zero_by_zero_witness :
  elems (vars_of saturated_stats) !! 1 = Some (0 / 0)%float.
Proof.
  destruct (saturated_model_divides_zero_by_zero (M:=numeric_matrix)
              (F:=qr_fit) (T:=none) saturated_qr [0%float]
              (RealMatrix saturated_matrix) none_ctor saturated_matrix
              {| QR := saturated_qr; AUX := [0%float] |})
    as (_ & _ & H).
  - reflexivity.
  - reflexivity.
  - reflexivity.
  - destruct (H (means_of saturated_stats) (vars_of saturated_stats) 1)
      as (_ & Hv & _).
    + vm_compute. reflexivity.
    + simpl. lia.
    + exact Hv.
Defined.

(** C7 fails on the code: a factorization of four observations meets a
    matrix of six cells, and the call raises no error: with a row it
    returns a mean and a variance, without rows two empty outputs. *)
Lemma dimension_mismatch_goes_unnoticed :
  nrow sample_qr = 4
  ∧ inmat_ncol (RealMatrix wide_matrix) = 6
  ∧ is_fatal (compute_residual_stats_none (F:=qr_fit) sample_qr sample_qraux
                (RealMatrix wide_matrix)) = false
  ∧ compute_residual_stats_none (F:=qr_fit) sample_qr sample_qraux
      (RealMatrix wide_matrix)
    = Ok ({| nrow := 1; ncol := 1; elems := [7%float] |},
          {| nrow := 1; ncol := 1; elems := [(264 / 5)%float] |})
  ∧ compute_residual_stats_none (F:=qr_fit) sample_qr sample_qraux
      (RealMatrix empty_matrix)
    = Ok (NumericMatrix_new 1 0, NumericMatrix_new 1 0).
Proof. split_and!; vm_compute; reflexivity. Qed.

Lemma factorization_checked_by_constructor_alone_witness :
  compute_residual_stats (M:=numeric_matrix) (F:=qr_fit) sample_qr []
    (RealMatrix wide_matrix) none_ctor
  = Fatal "QR auxiliary vector should be of length ncol(Q)"
  ∧ compute_residual_stats (M:=numeric_matrix) (F:=qr_fit) sample_qr sample_qraux
      (RealMatrix empty_matrix) none_ctor
    = Ok (NumericMatrix_new 1 0, NumericMatrix_new 1 0).
Proof.
  split.
  - destruct (factorization_checked_by_constructor_alone (M:=numeric_matrix)
                (F:=qr_fit) (T:=none) sample_qr [] (RealMatrix wide_matrix)
                none_ctor wide_matrix) as [H _].
    + reflexivity.
    + apply H. reflexivity.
  - destruct (factorization_checked_by_constructor_alone (M:=numeric_matrix)
                (F:=qr_fit) (T:=none) sample_qr sample_qraux
                (RealMatrix empty_matrix) none_ctor empty_matrix) as [_ H].
    + reflexivity.
    + destruct (H sample_fit) as [H0 _]; [reflexivity|].
      apply H0. reflexivity.
Defined.

Lemma outputs_are_two_row_aligned_sequences_witness :
  length (elems (means_of sample_none_stats)) = 2
  ∧ length (elems (vars_of sample_none_stats)) = 2
  ∧ elems (means_of sample_none_stats) !! 1
    = Some (spec_mean 4 [1; 3; 7; 15]%float)
  ∧ ∃ p stores,
      multiply sample_fit [1; 3; 7; 15]%float = Ok p
      ∧ variance_stores 4 1 p 0%float = Ok stores
      ∧ length stores = 4
      ∧ elems (vars_of sample_none_stats) !! 1 = last stores.
Proof.
  destruct (outputs_are_two_row_aligned_sequences (M:=numeric_matrix)
              (F:=qr_fit) (T:=none) sample_qr sample_qraux
              (RealMatrix sample_matrix) none_ctor sample_matrix
              (means_of sample_none_stats) (vars_of sample_none_stats))
    as ((_ & _ & Hm) & (_ & _ & Hv) & _ & fitter & Hf & Hrows).
  - reflexivity.
  - vm_compute. reflexivity.
  - injection Hf as <-.
    destruct (Hrows 1) as (st_i & st_i1 & row & buf & p & stores & _ & _ & Hrow
                           & Htr & Hmul & _ & _ & Hst & Hcount & _ & _ & Hmean
                           & Hvar & _); [simpl; lia|].
    vm_compute in Hrow. injection Hrow as <-.
    injection Htr as _ <-.
    split_and!; [exact Hm | exact Hv | exact Hmean |].
    exists p, stores. split_and!; [exact Hmul | exact Hst | exact Hcount | exact Hvar].
Defined.

(** C9 fails on the code: in the row [2, 4, 6, 8], projected to
    [-10, 0, 2, 4], the variance entry of the row is stored four times, with
    0, 4 and 20 from the residual loop and then the quotient 20/3. *)
Lemma variance_entry_is_stored_repeatedly :
  multiply sample_fit [2; 4; 6; 8]%float = Ok [-10; 0; 2; 4]%float
  ∧ variance_stores 4 1 [-10; 0; 2; 4]%float 0%float
    = Ok [0; 4; 20; 20 / 3]%float
  ∧ elems (vars_of sample_none_stats) !! 0 = Some (20 / 3)%float.
Proof. split_and!; vm_compute; reflexivity. Qed.

Lemma encodings_agree_witness :
  compute_residual_stats_lognorm series_log (F:=qr_fit) sample_qr sample_qraux
    (IntegerMatrix sample_counts) sample_sf 1%float
  = compute_residual_stats_lognorm series_log (F:=qr_fit) sample_qr sample_qraux
      (RealMatrix sample_matrix) sample_sf 1%float.
Proof.
  destruct (encodings_agree series_log (F:=qr_fit) sample_qr sample_qraux
              sample_counts sample_matrix sample_sf 1%float) as (_ & H & _).
  - unfold same_values. split_and!; vm_compute; reflexivity.
  - exact H.
Defined.

Lemma size_factors_read_unchecked_witness :
  compute_residual_stats_lognorm series_log (F:=qr_fit) sample_qr sample_qraux
    (RealMatrix sample_matrix) [1; 1; 1]%float 1%float = Undefined.
Proof.
  destruct (size_factors_read_unchecked series_log (F:=qr_fit) sample_qr
              sample_qraux (RealMatrix sample_matrix) [1; 1; 1]%float 1%float
              sample_fit [2; 4; 6; 8]%float) as (_ & _ & H & _).
  - reflexivity.
  - simpl. lia.
  - reflexivity.
  - apply H. simpl. lia.
Defined.

(** ** Sample runs of the further properties *)

Lemma row_statistics_depend_on_row_alone_witness :
  elems (means_of sample_none_stats) !! 0
  = elems (means_of swapped_none_stats) !! 1
  ∧ elems (vars_of sample_none_stats) !! 0
    = elems (vars_of swapped_none_stats) !! 1.
Proof.
  destruct (row_statistics_depend_on_row_alone series_log (F:=qr_fit)
              sample_qr sample_qraux (IntegerMatrix sample_counts)
              (RealMatrix swapped_matrix) 0 1) as [H _].
  - reflexivity.
  - simpl. lia.
  - simpl. lia.
  - vm_compute. reflexivity.
  - apply (H (means_of sample_none_stats) (vars_of sample_none_stats)
             (means_of swapped_none_stats) (vars_of swapped_none_stats)).
    + vm_compute. reflexivity.
    + vm_compute. reflexivity.
Defined.

Lemma means_ignore_the_factorization_witness :
  means_of sample_none_stats = means_of plain_none_stats.
Proof.
  destruct (means_ignore_the_factorization series_log (F:=qr_fit)
              sample_qr sample_qraux plain_qr [] (RealMatrix sample_matrix))
    as [H _].
  apply (H (means_of sample_none_stats) (vars_of sample_none_stats)
           (means_of plain_none_stats) (vars_of plain_none_stats)).
  - vm_compute. reflexivity.
  - vm_compute. reflexivity.
Defined.

Lemma first_failing_row_fails_call_witness :
  compute_residual_stats (M:=numeric_matrix) (F:=qr_fit) sample_qr sample_qraux
    (RealMatrix truncated_matrix) none_ctor
  = Fatal "truncated storage".
Proof.
  eapply (first_failing_row_fails_call (M:=numeric_matrix) (F:=qr_fit) (T:=none)
            sample_qr sample_qraux (RealMatrix truncated_matrix) none_ctor
            truncated_matrix sample_fit 1).
  - reflexivity.
  - reflexivity.
  - simpl. lia.
  - vm_compute. reflexivity.
  - left. reflexivity.
Defined.

Lemma more_coefficients_than_cells_never_returns_witness :
  compute_residual_stats (M:=numeric_matrix) (F:=qr_fit) sample_qr sample_qraux
    (RealMatrix narrow_matrix) none_ctor
  = (p ← multiply sample_fit []; Undefined).
Proof.
  apply (more_coefficients_than_cells_never_returns (M:=numeric_matrix)
           (F:=qr_fit) (T:=none) sample_qr sample_qraux (RealMatrix narrow_matrix)
           none_ctor none_ctor narrow_matrix sample_fit [] []).
  - reflexivity.
  - reflexivity.
  - simpl. lia.
  - reflexivity.
  - reflexivity.
  - simpl. lia.
Defined.

Lemma lognorm_reads_leading_size_factors_witness :
  ∃ buf',
    lognorm_op series_log (lognorm_ctor sample_sf 1%float) [1; 3; 7; 15]%float
    = Ok (lognorm_ctor sample_sf 1%float, buf')
    ∧ lognorm_op series_log (lognorm_ctor (sample_sf ++ [0; 0]%float) 1%float)
        [1; 3; 7; 15]%float
      = Ok (lognorm_ctor (sample_sf ++ [0; 0]%float) 1%float, buf').
Proof.
  apply (lognorm_reads_leading_size_factors series_log sample_sf
           (sample_sf ++ [0; 0]%float) 1%float [1; 3; 7; 15]%float).
  - simpl. lia.
  - simpl. lia.
  - reflexivity.
Defined.

Lemma calls_return_on_readable_rows_witness :
  ∃ means vars,
    compute_residual_stats_lognorm series_log (F:=qr_fit) sample_qr sample_qraux
      (IntegerMatrix sample_counts) sample_sf 1%float = Ok (means, vars).
Proof.
  destruct (calls_return_on_readable_rows series_log (F:=qr_fit)
              sample_qr sample_qraux (IntegerMatrix sample_counts) sample_fit)
    as [_ H].
  - reflexivity.
  - simpl. lia.
  - intros i Hi. destruct i as [|[|i]].
    + eexists. vm_compute. reflexivity.
    + eexists. vm_compute. reflexivity.
    + simpl in Hi. lia.
  - intros buf Hlen.
    destruct buf as [|a [|b [|c [|d [|e buf]]]]]; try discriminate Hlen.
    eexists. reflexivity.
  - apply (H sample_sf 1%float). simpl. lia.
Defined.
